(** * solarlog-enerest: the portal client and its channel aggregator

    A shallow embedding of [src/index.js] (class [SolarLogOnline]).  The
    documented copy of the same class in the second source file has the same
    method bodies; where the two differ (the constructor) it is said below.

    - Part 1 models [get_combined_inverter_data]'s aggregation loop over a
      heap of arrays, so that the aliasing of [data[index]] with the first
      record's [dataPoints] is visible, together with the properties the
      object [data] inherits from [Object.prototype].
    - Part 2 models the client: its session state, the requests it hands to
      axios and the way a rejected request rejects the whole method. *)

From Stdlib Require Import Ascii Floats.PrimFloat.
From Corelib Require Import FloatOps FloatAxioms SpecFloat.
From stdpp Require Import functions gmap strings list fin_maps.

(** ** Part 1: values, arrays and the heap *)

(** The values an element of a [dataPoints] array can take.  The portal
    sends JSON numbers and [null]; [undefined] is what JavaScript reads out
    of range, and what a hole left by a write far past the end reads as.
    A number is an IEEE 754 binary64 value, as in JavaScript. *)
Inductive jsval :=
  | JUndefined
  | JNull
  | JNumber (x : float).

Global Instance jsval_inhabited : Inhabited jsval := populate JUndefined.

(** ECMAScript [ToNumber] on these values. *)
Definition to_number (v : jsval) : float :=
  match v with
  | JUndefined => nan
  | JNull => zero
  | JNumber x => x
  end.

(** The binary [+] of JavaScript when neither operand is a string or an
    object: both sides go through [ToNumber] and are added as doubles. *)
Definition js_add (v w : jsval) : jsval :=
  JNumber (to_number v + to_number w)%float.

Definition is_null (v : jsval) : bool :=
  match v with JNull => true | _ => false end.

Definition number_or_null (v : jsval) : Prop :=
  match v with JUndefined => False | _ => True end.

Abbreviation array := (list jsval).
Abbreviation loc := nat.
Abbreviation heap := (list array).

(** [a[i]]: reading past the end gives [undefined]. *)
Definition arr_get (a : array) (i : nat) : jsval := default JUndefined (a !! i).

(** [a[i] = v]: in range the element is replaced; past the end JavaScript
    grows the array, leaving holes below the new element. *)
Definition arr_set (i : nat) (v : jsval) (a : array) : array :=
  if decide (i < length a) then <[i := v]> a
  else a ++ replicate (i - length a) JUndefined ++ [v].

(** A series record of the cross-epoch response.  [A] is what the
    [dataPoints] field holds: the array itself in the JSON payload, an
    address once the payload has been decoded into objects. *)
Record series (A : Type) := Series {
  name : string;
  date : string;
  dataPoints : A
}.
Arguments Series {A} _ _ _.
Arguments name {A} _.
Arguments date {A} _.
Arguments dataPoints {A} _.

(** Decoding the payload: every record gets an array of its own; the array
    of the [j]-th record lives at address [j]. *)
Definition decode (j : loc) (s : series array) : series loc :=
  Series (name s) (date s) j.

Definition parse (payload : list (series array)) : list (series loc) * heap :=
  (imap decode payload, dataPoints <$> payload).

(** ** What [data] inherits *)

(** [const data = {}] is an ordinary object: a property it does not own is
    looked up on [Object.prototype].  A key of the loop holds an underscore,
    and five properties of [Object.prototype] have such a name: the accessor
    [__proto__], which reads as [Object.prototype] itself, and four
    functions.  (The others, [constructor], [hasOwnProperty],
    [isPrototypeOf], [propertyIsEnumerable], [toLocaleString], [toString]
    and [valueOf], hold none, and neither do the index properties the loop
    may add.) *)
Inductive builtin :=
  | ObjectPrototype
  | DefineGetter
  | DefineSetter
  | LookupGetter
  | LookupSetter.

Global Instance builtin_eq_dec : EqDecision builtin.
Proof. solve_decision. Defined.

Definition inherited (k : string) : option builtin :=
  if decide (k = "__proto__") then Some ObjectPrototype
  else if decide (k = "__defineGetter__") then Some DefineGetter
  else if decide (k = "__defineSetter__") then Some DefineSetter
  else if decide (k = "__lookupGetter__") then Some LookupGetter
  else if decide (k = "__lookupSetter__") then Some LookupSetter
  else None.

(** The index properties written onto each of these objects: [realm b]
    lists the values of the properties [0], [1], ... of [b].  The loop is
    the only writer, it writes numbers, and it writes them in ascending
    order, so the properties of an object form a list. *)
Abbreviation realm_state := (builtin → array).

(** The realm as the engine creates it: no such property anywhere.  A call
    is modelled as starting there; what it leaves behind is the [realm] of
    its result. *)
Definition pristine : realm_state := λ _, [].

(** ** The aggregation loop of [get_combined_inverter_data] *)

(** The own properties of [data], the heap its values point into, and the
    realm. *)
Record store := Store {
  data : gmap string loc;
  mem : heap;
  realm : realm_state
}.

(** What [data[index]] can evaluate to besides [undefined]: an array of the
    heap, or an object inherited from [Object.prototype]. *)
Inductive place :=
  | InHeap (l : loc)
  | OnBuiltin (b : builtin).

(** [data[index]]: the own property, else the inherited one, else
    [undefined] ([None]). *)
Definition data_get (st : store) (index : string) : option place :=
  match data st !! index with
  | Some l => Some (InHeap l)
  | None => OnBuiltin <$> inherited index
  end.

(** The index properties an object owns. *)
Definition props_of (st : store) (p : place) : array :=
  match p with
  | InHeap l => default [] (mem st !! l)
  | OnBuiltin b => realm st b
  end.

(** [o[i]]: the own property, else the one of [Object.prototype], where
    the prototype chain of an array, of a function and of
    [Object.prototype] itself ends; else [undefined]. *)
Definition cell (st : store) (p : place) (i : nat) : jsval :=
  match props_of st p !! i with
  | Some v => v
  | None => arr_get (realm st ObjectPrototype) i
  end.

(** [o[i] = v]: always an own property of [o]. *)
Definition write (p : place) (i : nat) (v : jsval) (st : store) : store :=
  match p with
  | InHeap l =>
      Store (data st) (<[l := arr_set i v (props_of st p)]> (mem st)) (realm st)
  | OnBuiltin b =>
      Store (data st) (mem st) (<[b := arr_set i v (realm st b)]> (realm st))
  end.

(** [item.name + "_" + item.date] *)
Definition index_of {A} (item : series A) : string :=
  name item +:+ "_" +:+ date item.

(** One turn of the inner loop:
    [if (data[index][i] === null) continue; data[index][i] += item.dataPoints[i]] *)
Definition add_at (acc : place) (src : loc) (st : store) (i : nat) : store :=
  match cell st acc i with
  | JNull => st
  | v => write acc i (js_add v (cell st (InHeap src) i)) st
  end.

(** [for (const i in item.dataPoints)]: the indices of the array,
    ascending, then the enumerable index properties it inherits from
    [Object.prototype] and does not own itself. *)
Definition indices (st : store) (src : loc) : list nat :=
  seq 0 (length (props_of st (InHeap src))
           `max` length (realm st ObjectPrototype)).

(** One turn of the outer loop.  [data[index]], when it is not [undefined],
    is an array or an inherited object, and both are truthy (an empty array
    too): [!data[index]] holds exactly when the key is neither owned nor
    inherited. *)
Definition visit (st : store) (item : series loc) : store :=
  let index := index_of item in
  match data_get st index with
  | None => Store (<[index := dataPoints item]> (data st)) (mem st) (realm st)
  | Some acc =>
      foldl (add_at acc (dataPoints item)) st (indices st (dataPoints item))
  end.

(** [const data = {}; for (const item of epoch_res) { ... } return data;] *)
Definition combine (epoch_res : list (series loc)) (h : heap) : store :=
  foldl visit (Store ∅ h pristine) epoch_res.

(** The loop run on a decoded payload. *)
Definition aggregate (payload : list (series array)) : store :=
  combine (parse payload).1 (parse payload).2.

(** The same call in a realm that is not fresh: [rlm] holds what earlier
    code of the process left on the inherited objects. *)
Definition aggregate_in (rlm : realm_state)
    (payload : list (series array)) : store :=
  foldl visit (Store ∅ (parse payload).2 rlm) (parse payload).1.

(** Two stores that agree on everything but the index properties of the
    four inherited functions. *)
Definition same_core (st1 st2 : store) : Prop :=
  data st1 = data st2
  ∧ mem st1 = mem st2
  ∧ realm st1 ObjectPrototype = realm st2 ObjectPrototype.

(** The loop after its first [n] turns. *)
Definition progress (payload : list (series array)) (n : nat) : store :=
  combine (take n (parse payload).1) (parse payload).2.

(** What the caller reads from the returned object: the array of each own
    key. *)
Definition contents (st : store) : gmap string array :=
  (λ l, default [] (mem st !! l)) <$> data st.

(** ** The loop's result, stated on the payload *)

(** What the inner loop does to the accumulator [acc] when it runs over
    [item]: position by position, a [null] of the accumulator stays, any
    other value takes [item]'s value with [+], and a position past the
    accumulator's end reads [undefined] and is appended. *)
Fixpoint merge (acc item : array) : array :=
  match item with
  | [] => acc
  | x :: item' =>
      match acc with
      | [] => js_add JUndefined x :: merge [] item'
      | JNull :: acc' => JNull :: merge acc' item'
      | v :: acc' => js_add v x :: merge acc' item'
      end
  end.

(** The inner loop on the accumulator alone, index by index. *)
Definition add_elem (item acc : array) (i : nat) : array :=
  match arr_get acc i with
  | JNull => acc
  | v => arr_set i (js_add v (arr_get item i)) acc
  end.

(** The records of a payload filed under key [k], in payload order. *)
Definition group (k : string) (rs : list (series array)) : list (series array) :=
  filter (λ s, index_of s = k) rs.

(** The position of the first record filed under key [k]. *)
Definition first_at (k : string) (rs : list (series array)) : option nat :=
  fst <$> list_find (λ s, index_of s = k) rs.

(** The first array with every later one merged into it, in order. *)
Definition totals (g : list array) : array :=
  match g with
  | [] => []
  | a :: rest => foldl merge a rest
  end.

Definition total (k : string) (rs : list (series array)) : array :=
  totals (dataPoints <$> group k rs).

(** The sum the loop builds at index [i]: the first value, then each later
    record's value added in payload order, [null] counting as [0]. *)
Definition sum_at (i : nat) (first : array) (rest : list array) : float :=
  foldl (λ acc a, (acc + to_number (arr_get a i))%float)
        (to_number (arr_get first i)) rest.

(** Does the string contain the separator the key is built with? *)
Fixpoint has_underscore (s : string) : bool :=
  match s with
  | EmptyString => false
  | String c s' => bool_decide (c = "_"%char) || has_underscore s'
  end.

(** The records of the spec's worked example. *)
Definition A_rec : series array :=
  Series "P" "2024-01-01" [JNumber 1; JNumber 2; JNull].
Definition B_rec : series array :=
  Series "P" "2024-01-01" [JNumber 3; JNumber 4; JNumber 5].

(** Two records under one key, the later one holding [null] where the
    first holds a number. *)
Definition numeric_first : series array :=
  Series "ProdPdc" "2024-01-01" [JNumber 1].
Definition null_later : series array :=
  Series "ProdPdc" "2024-01-01" [JNull].

(** Two records that differ in name and in date and still share a key. *)
Definition split_early : series array := Series "P" "x_1" [JNumber 1].
Definition split_late : series array := Series "P_x" "1" [JNumber 2].

(** Two records under one key, the later one longer than the first. *)
Definition short_first : series array :=
  Series "ProdPdc" "2024-01-01" [JNumber 1].
Definition long_later : series array :=
  Series "ProdPdc" "2024-01-01" [JNumber 2; JNumber 3].

(** Records of two channels on one day. *)
Definition pdc_one : series array :=
  Series "ProdPdc" "2024-01-01" [JNumber 1; JNull].
Definition pdc_two : series array :=
  Series "ProdPdc" "2024-01-01" [JNumber 2; JNumber 5].
Definition etotal_one : series array :=
  Series "ProdEtotal" "2024-01-01" [JNumber 7; JNumber 8].

(** A payload holds no record filed under [__proto__]. *)
Definition unpolluted (rs : list (series array)) : Prop :=
  Forall (λ s, index_of s ≠ "__proto__") rs.

(** Every value is [NaN]. *)
Definition all_nan (a : array) : Prop := Forall (λ v, v = JNumber nan) a.

(** From position [n] on, every value the array has is [NaN]. *)
Definition nan_from (n : nat) (a : array) : Prop :=
  ∀ i, n ≤ i → i < length a → arr_get a i = JNumber nan.

(** What an accumulator [a] keeps of the array [a0] it started as: it is
    no shorter, it is [null] where [a0] is and nowhere else, and it holds
    [NaN] past the end of [a0]. *)
Definition keeps (a0 a : array) : Prop :=
  length a0 ≤ length a
  ∧ (∀ i, is_null (arr_get a i) = is_null (arr_get a0 i))
  ∧ nan_from (length a0) a.

(** What holds of the loop's state once it has visited the records [pre]
    of the payload [rs]: the heap still has one array per record; the
    properties written onto [Object.prototype] are all [NaN]; [data] owns
    no inherited name and maps any other key to its first record; an array
    keeps what [keeps] says of the record it came with, and is that
    record's array as sent unless it has served as an accumulator; and
    [Object.prototype] has a property for every index of a visited record
    filed under [__proto__]. *)
Definition loop_inv (rs pre : list (series array)) (st : store) : Prop :=
  length (mem st) = length rs
  ∧ all_nan (realm st ObjectPrototype)
  ∧ (∀ k, data st !! k
          = match inherited k with
            | Some _ => None
            | None => first_at k pre
            end)
  ∧ (∀ j s, rs !! j = Some s →
       ∃ A, mem st !! j = Some A
            ∧ keeps (dataPoints s) A
            ∧ (first_at (index_of s) pre ≠ Some j
               ∨ inherited (index_of s) ≠ None
               ∨ group (index_of s) pre = [s] → A = dataPoints s))
  ∧ (∀ j s, j < length pre → rs !! j = Some s →
       index_of s = "__proto__" →
       length (dataPoints s) ≤ length (realm st ObjectPrototype)).

(** Records filed under [__proto__], and a payload they come first in. *)
Definition proto_one : series array := Series "_" "proto__" [JNumber 1; JNumber 2].
Definition proto_two : series array := Series "" "_proto__" [JNumber 5; JNumber 6].
Definition proto_long : series array :=
  Series "_" "proto__" [JNumber 1; JNumber 2; JNumber 3].
Definition plain_five : series array := Series "P" "d" [JNumber 5].
Definition plain_six : series array := Series "P" "d" [JNumber 6].

(** ** Part 2: the client and its transport *)

(** A decoded JSON value, for the payloads the client hands on untouched.
    The type is nested through [list]; no induction over it is needed. *)
#[local] Unset Elimination Schemes.
Inductive json :=
  | JsonNull
  | JsonBool (b : bool)
  | JsonNumber (x : float)
  | JsonString (s : string)
  | JsonArray (l : list json)
  | JsonObject (fields : list (string * json)).
#[local] Set Elimination Schemes.

(** A component is an object of portal-defined fields; the client reads
    only its [type]. *)
Abbreviation component := (gmap string json).

(** [component.type === 'Inverter']: strict equality with a string holds
    only for a field that is present and is that very string. *)
Definition is_inverter (c : component) : Prop :=
  c !! "type" = Some (JsonString "Inverter").

Global Instance is_inverter_dec c : Decision (is_inverter c).
Proof.
  unfold is_inverter.
  destruct (c !! "type") as [[| | |s| |]|];
    try (right; discriminate).
  destruct (decide (s = "Inverter")) as [->|Hne].
  - by left.
  - right. intros [= ?]. done.
Defined.

Inductive method := GET | POST.

(** A value of the [params] object of a request. *)
Inductive param :=
  | PString (s : string)
  | PList (l : list string)
  | PUndefined.

(** Does an optional array argument reach [params] as an array or as
    [undefined]? *)
Definition optional_list (o : option (list string)) : param :=
  match o with
  | Some l => PList l
  | None => PUndefined
  end.

(** What the client hands to axios: the headers are those the instance and
    the call configure (the ones axios adds by itself are left out). *)
Record request := Request {
  req_method : method;
  req_baseURL : string;
  req_url : string;
  req_params : list (string * param);
  req_body : list (string * string);
  req_headers : gmap string string
}.

(** The header lines of a request named [Authorization]. *)
Definition authorization_lines (r : request) : list (string * string) :=
  filter (λ line, line.1 = "Authorization") (map_to_list (req_headers r)).

(** What comes back from the wire for one request. *)
Inductive reply (A : Type) :=
  | NetworkError
  | Response (status : nat) (body : A).
Arguments NetworkError {A}.
Arguments Response {A} _ _.

(** The remote side, one function per response shape of the wire contract:
    the token object (its string-valued fields), the component list, the
    series list and any other JSON. *)
Record network := Network {
  post_token : request → reply (gmap string string);
  get_components : request → reply (list component);
  get_series : request → reply (list (series array));
  get_json : request → reply json
}.

Inductive failure :=
  | NetworkFailure
  | BadStatus (status : nat).

(** How a promise settles. *)
Inductive settled (A : Type) :=
  | Fulfilled (a : A)
  | Rejected (e : failure).
Arguments Fulfilled {A} _.
Arguments Rejected {A} _.

(** An asynchronous computation: the requests it sent, in order, and how
    it settled.  [await] on a rejected promise throws, which rejects the
    enclosing method: nothing after it runs. *)
Definition async (A : Type) : Type := list request * settled A.

Global Instance async_ret : MRet async := λ A a, ([], Fulfilled a).

Global Instance async_bind : MBind async := λ A B k m,
  match m.2 with
  | Fulfilled a => (m.1 ++ (k a).1, (k a).2)
  | Rejected e => (m.1, Rejected e)
  end.

(** axios' default [validateStatus]: a response resolves the promise when
    its status is in 200..299, and rejects it otherwise. *)
Definition settle {A} (r : reply A) : settled A :=
  match r with
  | NetworkError => Rejected NetworkFailure
  | Response status body =>
      if (200 <=? status) && (status <? 300) then Fulfilled body
      else Rejected (BadStatus status)
  end.

Definition send {A} (wire : request → reply A) (req : request) : async A :=
  ([req], settle (wire req)).

(** The client object: the constructor's fields, the token [login] stores
    (absent fields read [undefined]) and [axios.defaults.headers.common]. *)
Record client := Client {
  portal : string;
  baseURL : string;
  authURL : string;
  access_token : option string;
  common : gmap string string
}.

(** The headers both [Axios.create] and [login] spell out. *)
Definition default_headers : gmap string string :=
  list_to_map
    [("Accept", "*/*");
     ("Accept-Language", "en-US,en;q=0.7,de-DE;q=0.3");
     ("Content-Type", "application/x-www-form-urlencoded; charset=UTF-8");
     ("X-Requested-With", "XMLHttpRequest");
     ("Priority", "u=0")].

(** The constructor, called with a configuration object; an option the
    object leaves out takes its default.  No token is stored yet.  (The
    documented copy of the class also accepts a missing configuration
    object and sets [access_token] to [null].) *)
Definition new_client (portal : string) (baseURL authURL : option string)
  : client :=
  Client portal
         (default "https://api.enerest.world" baseURL)
         (default "https://auth.enerest.world" authURL)
         None ∅.

(** A template literal's text for a token: [undefined] prints as such. *)
Definition template (tok : option string) : string :=
  default "undefined" tok.

(** The headers of a request sent through the instance: the call's own,
    then the instance's, then [defaults.headers.common]. *)
Definition headers_of (st : client) (own : gmap string string)
  : gmap string string :=
  own ∪ default_headers ∪ common st.

Section Client.
Variable net : network.

Definition axios_get {A} (wire : request → reply A) (st : client)
    (url : string) (params : list (string * param)) : async A :=
  send wire (Request GET (baseURL st) url params [] (headers_of st ∅)).

Definition token_request (st : client) (client_id client_secret : string)
  : request :=
  Request POST (baseURL st)
    (authURL st +:+ "/auth/realms/quotaapi/protocol/openid-connect/token")
    []
    [("grant_type", "client_credentials");
     ("client_id", client_id);
     ("client_secret", client_secret)]
    (headers_of st default_headers).

Definition login (st : client) (client_id client_secret : string)
  : async client :=
  res_data ← send (post_token net) (token_request st client_id client_secret);
  let token := res_data !! "access_token" in
  mret (Client (portal st) (baseURL st) (authURL st) token
          (<["Authorization" := "Bearer " +:+ template token]> (common st))).

Definition components (st : client) (plantId date : string)
  : async (list component) :=
  axios_get (get_components net) st
    ("/api/v1/" +:+ portal st +:+ "/datasource/plant/" +:+ plantId
       +:+ "/components/" +:+ date)
    [].

Definition crossEpochChannels (st : client) (plantId : string)
    (xComponentIds channelNames : list string) (dateFrom dateTo : string)
  : async (list (series array)) :=
  axios_get (get_series net) st
    ("/api/v1/" +:+ portal st +:+ "/visualization/plant/" +:+ plantId
       +:+ "/cross-epoch/channels")
    [("xComponentIds", PList xComponentIds);
     ("channelNames", PList channelNames);
     ("dateFrom", PString dateFrom);
     ("dateTo", PString dateTo)].

Definition channels (st : client) (plantId dateFrom dateTo : string)
    (channelNames : list string) (mppTrackerIds : option (list string))
  : async json :=
  axios_get (get_json net) st
    ("/api/v1/" +:+ portal st +:+ "/visualization/plant/" +:+ plantId
       +:+ "/channels")
    [("dateFrom", PString dateFrom);
     ("dateTo", PString dateTo);
     ("channelNames", PList channelNames);
     ("mppTrackerIds", optional_list mppTrackerIds)].

Definition get_inverters (st : client) (plantId date : string)
  : async (list component) :=
  components ← components st plantId date;
  mret (filter is_inverter components).

Definition get_channel_data_month (st : client)
    (plantId year month : string) (channelNames : list string) : async json :=
  axios_get (get_json net) st
    ("/api/v1/" +:+ portal st +:+ "/visualization/plant/" +:+ plantId
       +:+ "/year/" +:+ year +:+ "/month/" +:+ month)
    [("channelNames", PList channelNames)].

Definition get_channel_data_year (st : client)
    (plantId year : string) (channelNames : list string) : async json :=
  axios_get (get_json net) st
    ("/api/v1/" +:+ portal st +:+ "/visualization/plant/" +:+ plantId
       +:+ "/year/" +:+ year)
    [("channelNames", PList channelNames)].

Definition get_channel_data_lifetime (st : client)
    (plantId : string) (channelNames : list string) : async json :=
  axios_get (get_json net) st
    ("/api/v1/" +:+ portal st +:+ "/visualization/plant/" +:+ plantId
       +:+ "/lifetime")
    [("channelNames", PList channelNames)].

(** The returned [data] object comes with the heap its arrays live in. *)
Definition get_combined_inverter_data (st : client) (plantId : string)
    (inverters : list string) (dateFrom dateTo : string) : async store :=
  epoch_res ← crossEpochChannels st plantId inverters
                ["ProdPdc"; "ProdEtotal"] dateFrom dateTo;
  mret (aggregate epoch_res).

(** The read methods with their arguments, and the requests each sends. *)
Inductive read_call :=
  | Components (plantId date : string)
  | CrossEpochChannels (plantId : string)
      (xComponentIds channelNames : list string) (dateFrom dateTo : string)
  | Channels (plantId dateFrom dateTo : string)
      (channelNames : list string) (mppTrackerIds : option (list string))
  | GetInverters (plantId date : string)
  | GetChannelDataMonth (plantId year month : string)
      (channelNames : list string)
  | GetChannelDataYear (plantId year : string) (channelNames : list string)
  | GetChannelDataLifetime (plantId : string) (channelNames : list string)
  | GetCombinedInverterData (plantId : string) (inverters : list string)
      (dateFrom dateTo : string).

Definition requests_of (st : client) (c : read_call) : list request :=
  match c with
  | Components p d => (components st p d).1
  | CrossEpochChannels p ids names from to =>
      (crossEpochChannels st p ids names from to).1
  | Channels p from to names ids => (channels st p from to names ids).1
  | GetInverters p d => (get_inverters st p d).1
  | GetChannelDataMonth p y m names =>
      (get_channel_data_month st p y m names).1
  | GetChannelDataYear p y names => (get_channel_data_year st p y names).1
  | GetChannelDataLifetime p names =>
      (get_channel_data_lifetime st p names).1
  | GetCombinedInverterData p ids from to =>
      (get_combined_inverter_data st p ids from to).1
  end.
End Client.

(** A portal that answers every request with the same status and bodies. *)
Definition fixed_portal (status : nat) (token : gmap string string)
    (cs : list component) (rs : list (series array)) : network :=
  Network (λ _, Response status token) (λ _, Response status cs)
          (λ _, Response status rs) (λ _, Response status JsonNull).

(** A component list of an inverter, a tracker, a second inverter and a
    component whose [type] is a number. *)
Definition inverter_one : component :=
  list_to_map [("id", JsonString "a1"); ("type", JsonString "Inverter")].
Definition tracker_one : component :=
  list_to_map [("id", JsonString "m1"); ("type", JsonString "MppTracker")].
Definition inverter_two : component :=
  list_to_map [("id", JsonString "a2"); ("type", JsonString "Inverter")].
Definition numbered_one : component :=
  list_to_map [("id", JsonString "n1"); ("type", JsonNumber 7)].

Definition mixed_components : list component :=
  [inverter_one; tracker_one; inverter_two; numbered_one].

(** * Proofs *)

(** ** Part 1: the inner loop is [merge] *)

Lemma merge_nil_r acc : merge acc [] = acc.
Proof. by destruct acc. Qed.

Lemma arr_get_middle (pre a : array) v :
  arr_get (pre ++ v :: a) (length pre) = v.
Proof. unfold arr_get. by rewrite list_lookup_middle. Qed.

Lemma arr_get_end (pre : array) : arr_get pre (length pre) = JUndefined.
Proof. unfold arr_get. by rewrite lookup_ge_None_2. Qed.

Lemma arr_set_middle (pre a : array) v w :
  arr_set (length pre) w (pre ++ v :: a) = pre ++ w :: a.
Proof.
  unfold arr_set. rewrite decide_True.
  - rewrite insert_app_r_alt by lia. by rewrite Nat.sub_diag.
  - rewrite length_app. simpl. lia.
Qed.

Lemma arr_set_end (pre : array) w : arr_set (length pre) w pre = pre ++ [w].
Proof.
  unfold arr_set. rewrite decide_False by lia. by rewrite Nat.sub_diag.
Qed.

(** One turn of the inner loop at the first index not yet visited. *)
Lemma add_elem_here (item pre a : array) :
  add_elem item (pre ++ a) (length pre)
  = pre ++ match a with
           | [] => [js_add JUndefined (arr_get item (length pre))]
           | JNull :: a' => JNull :: a'
           | v :: a' => js_add v (arr_get item (length pre)) :: a'
           end.
Proof.
  unfold add_elem. destruct a as [|v a].
  - rewrite app_nil_r, arr_get_end. apply arr_set_end.
  - rewrite arr_get_middle. destruct v; try done; apply arr_set_middle.
Qed.

Lemma add_elem_from (b pre_b pre_a a : array) :
  length pre_a = length pre_b →
  foldl (add_elem (pre_b ++ b)) (pre_a ++ a) (seq (length pre_b) (length b))
  = pre_a ++ merge a b.
Proof.
  revert pre_b pre_a a.
  induction b as [|x b IH]; intros pre_b pre_a a Hlen; simpl.
  { done. }
  rewrite <- Hlen, add_elem_here, Hlen, arr_get_middle.
  assert (Hnext : ∀ y (c : array),
    foldl (add_elem (pre_b ++ x :: b)) (pre_a ++ y :: c)
          (seq (S (length pre_b)) (length b)) = pre_a ++ y :: merge c b).
  { intros y c.
    specialize (IH (pre_b ++ [x]) (pre_a ++ [y]) c).
    rewrite !length_app, <- !(assoc_L (++)) in IH. simpl in IH.
    replace (length pre_b + 1) with (S (length pre_b)) in IH by lia.
    apply IH. lia. }
  destruct a as [|[| |y] a]; apply Hnext.
Qed.

(** Run over all of [item]'s indices, the inner loop computes [merge]. *)
Lemma add_elem_merge (acc item : array) :
  foldl (add_elem item) acc (seq 0 (length item)) = merge acc item.
Proof. by apply (add_elem_from item [] [] acc). Qed.

(** ** Keys, groups and first positions *)

Lemma first_at_cons k r rs :
  first_at k (r :: rs)
  = if decide (index_of r = k) then Some 0 else S <$> first_at k rs.
Proof.
  unfold first_at. simpl. case_decide; [done|].
  by destruct (list_find _ rs) as [[??]|].
Qed.

Lemma first_at_snoc k rs r :
  first_at k (rs ++ [r])
  = match first_at k rs with
    | Some j => Some j
    | None => if decide (index_of r = k) then Some (length rs) else None
    end.
Proof.
  induction rs as [|s rs IH]; simpl.
  - rewrite first_at_cons. by destruct (decide (index_of r = k)).
  - rewrite !first_at_cons. destruct (decide (index_of s = k)); [done|].
    rewrite IH. destruct (first_at k rs); [done|].
    by destruct (decide (index_of r = k)).
Qed.

Lemma first_at_lookup k rs j :
  first_at k rs = Some j → ∃ s, rs !! j = Some s ∧ index_of s = k.
Proof.
  revert j. induction rs as [|r rs IH]; intros j; [done|].
  rewrite first_at_cons. case_decide.
  - intros [= <-]. by exists r.
  - destruct (first_at k rs) as [i|]; [|done].
    intros [= <-]. by apply IH.
Qed.

Lemma first_at_lt k rs j : first_at k rs = Some j → j < length rs.
Proof.
  intros (s & Hs & _)%first_at_lookup. by eapply lookup_lt_Some.
Qed.

Lemma first_at_None k rs : first_at k rs = None ↔ group k rs = [].
Proof.
  unfold group. induction rs as [|r rs IH]; [done|].
  rewrite first_at_cons, filter_cons. case_decide; [done|].
  rewrite <- IH. by destruct (first_at k rs).
Qed.

Lemma first_at_elem k rs s :
  s ∈ rs → index_of s = k → is_Some (first_at k rs).
Proof.
  intros Hin Hk. destruct (first_at k rs) eqn:E; [done|].
  apply first_at_None in E. exfalso.
  by eapply (filter_nil_not_elem_of (λ s, index_of s = k)).
Qed.

Lemma group_snoc k rs r :
  group k (rs ++ [r])
  = group k rs ++ (if decide (index_of r = k) then [r] else []).
Proof.
  unfold group. rewrite filter_app, filter_cons, filter_nil.
  by case_decide.
Qed.

Lemma totals_snoc (g : list array) (a : array) :
  g ≠ [] → totals (g ++ [a]) = merge (totals g) a.
Proof.
  destruct g as [|f g]; [done|]. intros _. simpl. by rewrite foldl_snoc.
Qed.

Lemma total_snoc_other k rs r :
  index_of r ≠ k → total k (rs ++ [r]) = total k rs.
Proof.
  intros Hne. unfold total. rewrite group_snoc, decide_False by done.
  by rewrite app_nil_r.
Qed.

Lemma total_snoc_first rs r :
  first_at (index_of r) rs = None →
  total (index_of r) (rs ++ [r]) = dataPoints r.
Proof.
  intros Hnone%first_at_None. unfold total.
  rewrite group_snoc, decide_True, Hnone by done. done.
Qed.

Lemma total_snoc_later rs r j :
  first_at (index_of r) rs = Some j →
  total (index_of r) (rs ++ [r])
  = merge (total (index_of r) rs) (dataPoints r).
Proof.
  intros Hj. unfold total.
  rewrite group_snoc, decide_True, fmap_app by done. simpl.
  apply totals_snoc. intros Hnil%fmap_nil_inv.
  apply first_at_None in Hnil. congruence.
Qed.

(** ** [merge], position by position *)

Lemma length_merge (acc item : array) :
  length (merge acc item) = length acc `max` length item.
Proof.
  revert acc. induction item as [|x item IH]; intros acc; simpl.
  - lia.
  - destruct acc as [|[| |y] acc]; simpl; rewrite IH; simpl; lia.
Qed.

Lemma merge_at (acc item : array) i :
  arr_get (merge acc item) i
  = if decide (i < length item)
    then if is_null (arr_get acc i) then JNull
         else js_add (arr_get acc i) (arr_get item i)
    else arr_get acc i.
Proof.
  revert acc i. induction item as [|x item IH]; intros acc i.
  { rewrite merge_nil_r, decide_False by (simpl; lia). done. }
  destruct i as [|i].
  - rewrite decide_True by (simpl; lia). by destruct acc as [|[| |y] acc].
  - assert (Hi : ∀ (v : jsval) (a : array),
      arr_get (v :: a) (S i) = arr_get a i) by done.
    assert (Hnil : arr_get [] (S i) = arr_get [] i) by done.
    destruct acc as [|[| |y] acc]; cbn [merge];
      rewrite ?Hi, ?Hnil, IH;
      destruct (decide (i < length item));
      try (rewrite decide_True by (simpl; lia); done);
      rewrite decide_False by (simpl; lia); done.
Qed.

(** ** Sums under the equal-length precondition *)

Lemma merge_same_length (a b : array) :
  length b = length a →
  Forall number_or_null a →
  length (merge a b) = length a
  ∧ Forall number_or_null (merge a b)
  ∧ ∀ i, i < length a →
      is_null (arr_get (merge a b) i) = is_null (arr_get a i)
      ∧ to_number (arr_get (merge a b) i)
        = if is_null (arr_get a i) then to_number (arr_get a i)
          else (to_number (arr_get a i) + to_number (arr_get b i))%float.
Proof.
  intros Hlen Ha. split; [rewrite length_merge; lia|]. split.
  - apply Forall_lookup_2. intros i v Hv.
    pose proof (merge_at a b i) as Hat. unfold arr_get at 1 in Hat.
    rewrite Hv in Hat.
    apply lookup_lt_Some in Hv. rewrite length_merge in Hv.
    rewrite decide_True in Hat by lia. simpl in Hat. subst v.
    by destruct (is_null (arr_get a i)).
  - intros i Hi. rewrite merge_at, decide_True by lia.
    destruct (arr_get a i); done.
Qed.

Lemma number_or_null_at (a : array) i :
  Forall number_or_null a → i < length a →
  arr_get a i = JNull ∨ ∃ x, arr_get a i = JNumber x.
Proof.
  intros Ha Hi. destruct (lookup_lt_is_Some_2 a i Hi) as [v Hv].
  unfold arr_get. rewrite Hv. simpl.
  pose proof (Forall_lookup_1 _ _ _ _ Ha Hv) as Hn.
  destruct v; [done|by left|right; eauto].
Qed.

Lemma foldl_merge_sums (rest : list array) : ∀ (a : array),
  Forall (λ b, length b = length a) rest →
  Forall number_or_null a →
  length (foldl merge a rest) = length a
  ∧ Forall number_or_null (foldl merge a rest)
  ∧ ∀ i, i < length a →
      arr_get (foldl merge a rest) i
      = if is_null (arr_get a i) then JNull else JNumber (sum_at i a rest).
Proof.
  induction rest as [|b rest IH]; intros a Hlen Ha; simpl.
  - split; [done|]. split; [done|]. intros i Hi. unfold sum_at. simpl.
    by destruct (number_or_null_at a i Ha Hi) as [->|[x ->]].
  - apply Forall_cons in Hlen as [Hb Hrest].
    destruct (merge_same_length a b Hb Ha) as (Hl & Hn & Hat).
    destruct (IH (merge a b)) as (IHl & IHn & IHat); [|done|].
    { eapply Forall_impl; [exact Hrest|]. simpl. intros c ->. done. }
    split; [congruence|]. split; [done|]. intros i Hi.
    rewrite IHat by lia. destruct (Hat i Hi) as [Hnull Hnum].
    rewrite Hnull. destruct (is_null (arr_get a i)); [done|].
    unfold sum_at. simpl. by rewrite Hnum.
Qed.

(** ** Keys *)

Lemma append_nil (s : string) : "" +:+ s = s.
Proof. reflexivity. Qed.

Lemma append_cons c (n s : string) : String c n +:+ s = String c (n +:+ s).
Proof. reflexivity. Qed.

Lemma key_split (n1 n2 d1 d2 : string) :
  has_underscore n1 = false → has_underscore n2 = false →
  n1 +:+ "_" +:+ d1 = n2 +:+ "_" +:+ d2 → n1 = n2 ∧ d1 = d2.
Proof.
  revert n2. induction n1 as [|c n1 IH]; intros [|c' n2];
    rewrite ?append_cons, ?append_nil; simpl.
  - intros _ _ [= ->]. done.
  - intros _ H [= <- _]. rewrite bool_decide_eq_true_2 in H; done.
  - intros H _ [= -> _]. rewrite bool_decide_eq_true_2 in H; done.
  - intros [_ H1]%orb_false_elim [_ H2]%orb_false_elim [= -> E].
    destruct (IH n2 H1 H2 E) as [-> ->]. done.
Qed.

Lemma group_without k k' rs :
  k ≠ k' → group k (filter (λ s, index_of s ≠ k') rs) = group k rs.
Proof.
  intros Hne. unfold group. rewrite list_filter_filter.
  apply list_filter_iff. intros s. split; [tauto|].
  intros ->. done.
Qed.


(** ** Doubles: [NaN] absorbs *)

Lemma nan_add_l (x : float) : (nan + x)%float = nan.
Proof.
  rewrite <- (SF2Prim_Prim2SF (nan + x)%float), add_spec. reflexivity.
Qed.

(** [undefined + v] is [NaN], and so is [NaN + v]. *)
Lemma js_add_undefined v : js_add JUndefined v = JNumber nan.
Proof. unfold js_add. simpl. by rewrite nan_add_l. Qed.

Lemma js_add_nan v : js_add (JNumber nan) v = JNumber nan.
Proof. unfold js_add. simpl. by rewrite nan_add_l. Qed.

Lemma arr_get_lookup (a : array) i :
  i < length a → a !! i = Some (arr_get a i).
Proof.
  intros Hi. unfold arr_get.
  by destruct (lookup_lt_is_Some_2 a i Hi) as [v ->].
Qed.

Lemma arr_get_beyond (a : array) i : length a ≤ i → arr_get a i = JUndefined.
Proof. intros Hi. unfold arr_get. by rewrite lookup_ge_None_2. Qed.

(** ** Inherited names *)

Lemma inherited_proto k : inherited k = Some ObjectPrototype ↔ k = "__proto__".
Proof.
  unfold inherited. split.
  - repeat case_decide; congruence.
  - intros ->. done.
Qed.

(** A key of the loop holds an underscore; the other properties of
    [Object.prototype] do not. *)
Lemma has_underscore_sep (n d : string) :
  has_underscore (n +:+ String "_" d) = true.
Proof.
  induction n as [|c n IH]; [done|].
  rewrite append_cons. simpl. rewrite IH. apply orb_true_r.
Qed.

Lemma has_underscore_key {A} (s : series A) : has_underscore (index_of s) = true.
Proof. apply has_underscore_sep. Qed.

Lemma other_names_have_no_underscore :
  Forall (λ n, has_underscore n = false)
    ["constructor"; "hasOwnProperty"; "isPrototypeOf"; "propertyIsEnumerable";
     "toLocaleString"; "toString"; "valueOf"].
Proof. repeat constructor. Qed.

(** ** One write *)

Lemma data_write p i v st : data (write p i v st) = data st.
Proof. by destruct p. Qed.

Lemma length_mem_write p i v st :
  length (mem (write p i v st)) = length (mem st).
Proof. destruct p; simpl; [apply length_insert|done]. Qed.

Lemma mem_write_other p i v st l :
  p ≠ InHeap l → mem (write p i v st) !! l = mem st !! l.
Proof.
  destruct p as [l'|b]; simpl; intros H; [|done].
  rewrite list_lookup_insert_ne; [done|congruence].
Qed.

Lemma realm_write_other p i v st b :
  p ≠ OnBuiltin b → realm (write p i v st) b = realm st b.
Proof.
  destruct p as [l|b']; simpl; intros H; [done|].
  rewrite fn_lookup_insert_ne; [done|congruence].
Qed.

Lemma mem_write_same l i v st (A : array) :
  mem st !! l = Some A →
  mem (write (InHeap l) i v st) !! l = Some (arr_set i v A).
Proof.
  intros H. simpl. rewrite H. simpl.
  apply list_lookup_insert_eq. by eapply lookup_lt_Some.
Qed.

Lemma realm_write_same b i v st :
  realm (write (OnBuiltin b) i v st) b = arr_set i v (realm st b).
Proof. simpl. apply fn_lookup_insert. Qed.

(** ** The frame of the inner loop: it writes to its accumulator only *)

Lemma add_at_frame acc src st i :
  data (add_at acc src st i) = data st
  ∧ length (mem (add_at acc src st i)) = length (mem st)
  ∧ (∀ l, acc ≠ InHeap l → mem (add_at acc src st i) !! l = mem st !! l)
  ∧ (∀ b, acc ≠ OnBuiltin b → realm (add_at acc src st i) b = realm st b).
Proof.
  unfold add_at. destruct (cell st acc i); try done;
    (split; [apply data_write|]); (split; [apply length_mem_write|]);
    (split; [intros l Hl; by apply mem_write_other
            |intros b Hb; by apply realm_write_other]).
Qed.

Lemma inner_loop_frame acc src idxs st :
  data (foldl (add_at acc src) st idxs) = data st
  ∧ length (mem (foldl (add_at acc src) st idxs)) = length (mem st)
  ∧ (∀ l, acc ≠ InHeap l →
          mem (foldl (add_at acc src) st idxs) !! l = mem st !! l)
  ∧ (∀ b, acc ≠ OnBuiltin b →
          realm (foldl (add_at acc src) st idxs) b = realm st b).
Proof.
  revert st. induction idxs as [|i idxs IH]; intros st; simpl; [done|].
  destruct (IH (add_at acc src st i)) as (Hd & Hl & Hm & Hr).
  destruct (add_at_frame acc src st i) as (Hd' & Hl' & Hm' & Hr').
  split; [congruence|]. split; [congruence|]. split.
  - intros l Hne. by rewrite Hm, Hm'.
  - intros b Hne. by rewrite Hr, Hr'.
Qed.

(** ** What an accumulator keeps *)

Lemma keeps_refl (a : array) : keeps a a.
Proof. split; [done|]. split; [done|]. intros i Hi Hlt. lia. Qed.

Lemma all_nan_get (P : array) i :
  all_nan P → arr_get P i = JNumber nan ∨ arr_get P i = JUndefined.
Proof.
  intros HP. unfold arr_get. destruct (P !! i) as [v|] eqn:Hv; [|by right].
  left. simpl. by apply (Forall_lookup_1 _ _ _ _ HP Hv).
Qed.

Lemma arr_get_insert (A : array) i j w :
  i < length A →
  arr_get (<[i := w]> A) j = if decide (i = j) then w else arr_get A j.
Proof.
  intros Hi. unfold arr_get. case_decide as Hij.
  - subst j. by rewrite list_lookup_insert_eq.
  - by rewrite list_lookup_insert_ne.
Qed.

Lemma arr_set_in_range (A : array) i w :
  i < length A → arr_set i w A = <[i := w]> A.
Proof. intros Hi. unfold arr_set. by rewrite decide_True. Qed.

(** Replacing a value that is not [null] by a number that is [NaN] past
    the end of the original array. *)
Lemma keeps_update (A0 A : array) i v w :
  keeps A0 A → A !! i = Some v → v ≠ JNull →
  is_null w = false → (length A0 ≤ i → w = JNumber nan) →
  keeps A0 (<[i := w]> A).
Proof.
  intros (Hlen & Hnull & Hnan) Hv Hnn Hw Hpast.
  pose proof (lookup_lt_Some _ _ _ Hv) as Hi.
  split; [by rewrite length_insert|]. split.
  - intros j. rewrite arr_get_insert by done. case_decide as Hij; [|done].
    subst j. rewrite <- Hnull. unfold arr_get. rewrite Hv. simpl.
    rewrite Hw. by destruct v.
  - intros j Hj Hlt. rewrite length_insert in Hlt.
    rewrite arr_get_insert by done. case_decide as Hij; [|by apply Hnan].
    subst j. by apply Hpast.
Qed.

Lemma keeps_snoc (A0 A : array) : keeps A0 A → keeps A0 (A ++ [JNumber nan]).
Proof.
  intros (Hlen & Hnull & Hnan).
  split; [rewrite length_app; simpl; lia|]. split.
  - intros j. destruct (decide (j < length A)) as [Hlt|Hge].
    + rewrite <- Hnull. unfold arr_get. by rewrite lookup_app_l.
    + rewrite <- Hnull. rewrite (arr_get_beyond A) by lia.
      unfold arr_get. rewrite lookup_app_r by lia.
      by destruct (j - length A) as [|[|?]].
  - intros j Hj Hlt. rewrite length_app in Hlt. simpl in Hlt.
    destruct (decide (j < length A)) as [Hin|Hout].
    + unfold arr_get. rewrite lookup_app_l by done. by apply Hnan.
    + assert (j = length A) as -> by lia.
      unfold arr_get. by rewrite list_lookup_middle.
Qed.

(** One turn of the inner loop on an array of the heap. *)
Lemma cell_heap st a (A : array) i :
  mem st !! a = Some A →
  cell st (InHeap a) i
  = match A !! i with
    | Some v => v
    | None => arr_get (realm st ObjectPrototype) i
    end.
Proof. intros HA. unfold cell. simpl. by rewrite HA. Qed.

Lemma add_at_keeps a src st i (A0 A : array) :
  all_nan (realm st ObjectPrototype) →
  mem st !! a = Some A → keeps A0 A → i ≤ length A →
  ∃ A', mem (add_at (InHeap a) src st i) !! a = Some A'
        ∧ keeps A0 A' ∧ S i ≤ length A'.
Proof.
  intros HP HA Hk Hi. unfold add_at. rewrite (cell_heap st a A i HA).
  set (x := cell st (InHeap src) i).
  destruct (A !! i) as [v|] eqn:Hv.
  - pose proof (lookup_lt_Some _ _ _ Hv) as Hlt.
    assert (Hnan : length A0 ≤ i → v = JNumber nan).
    { intros Hge. destruct Hk as (_ & _ & Hn).
      specialize (Hn i Hge Hlt). unfold arr_get in Hn.
      by rewrite Hv in Hn. }
    destruct v as [| |y].
    + eexists. split; [by apply mem_write_same|].
      rewrite arr_set_in_range by done. split; [|rewrite length_insert; lia].
      eapply keeps_update; [done..|]. intros Hge. by specialize (Hnan Hge).
    + exists A. split; [done|]. split; [done|lia].
    + eexists. split; [by apply mem_write_same|].
      rewrite arr_set_in_range by done. split; [|rewrite length_insert; lia].
      eapply keeps_update; [done..|]. intros Hge.
      rewrite (Hnan Hge). apply js_add_nan.
  - apply lookup_ge_None in Hv. assert (i = length A) as Ei by lia.
    assert (Hw : ∀ v, v = JNumber nan ∨ v = JUndefined →
                 js_add v x = JNumber nan).
    { intros v [->| ->]; [apply js_add_nan|apply js_add_undefined]. }
    destruct (all_nan_get _ i HP) as [E|E]; rewrite E;
      (eexists; split; [by apply mem_write_same|]);
      rewrite Hw, Ei, arr_set_end by auto;
      (split; [by apply keeps_snoc|rewrite length_app; simpl; lia]).
Qed.

Lemma inner_loop_keeps a src m : ∀ st i0 (A0 A : array),
  all_nan (realm st ObjectPrototype) →
  mem st !! a = Some A → keeps A0 A → i0 ≤ length A →
  ∃ A', mem (foldl (add_at (InHeap a) src) st (seq i0 m)) !! a = Some A'
        ∧ keeps A0 A'.
Proof.
  induction m as [|m IH]; intros st i0 A0 A HP HA Hk Hi; simpl.
  - eauto.
  - destruct (add_at_keeps a src st i0 A0 A HP HA Hk Hi) as (A1 & H1 & Hk1 & Hi1).
    apply (IH _ (S i0) A0 A1); [|done..].
    destruct (add_at_frame (InHeap a) src st i0) as (_ & _ & _ & Hr).
    by rewrite Hr.
Qed.

(** ** What the loop writes onto [Object.prototype] *)

Lemma add_at_all_nan src st i :
  all_nan (realm st ObjectPrototype) → i ≤ length (realm st ObjectPrototype) →
  all_nan (realm (add_at (OnBuiltin ObjectPrototype) src st i) ObjectPrototype)
  ∧ S i ≤ length (realm (add_at (OnBuiltin ObjectPrototype) src st i)
                    ObjectPrototype)
  ∧ length (realm st ObjectPrototype)
    ≤ length (realm (add_at (OnBuiltin ObjectPrototype) src st i)
                ObjectPrototype).
Proof.
  intros HP Hi. unfold add_at.
  set (x := cell st (InHeap src) i).
  assert (Hc : cell st (OnBuiltin ObjectPrototype) i
               = arr_get (realm st ObjectPrototype) i).
  { unfold cell, arr_get. simpl.
    by destruct (realm st ObjectPrototype !! i). }
  rewrite Hc.
  destruct (realm st ObjectPrototype !! i) as [v|] eqn:Hv.
  - pose proof (lookup_lt_Some _ _ _ Hv) as Hlt.
    pose proof (Forall_lookup_1 _ _ _ _ HP Hv) as Ev. simpl in Ev. subst v.
    assert (Eg : arr_get (realm st ObjectPrototype) i = JNumber nan)
      by (unfold arr_get; by rewrite Hv).
    rewrite Eg. cbv beta iota.
    rewrite realm_write_same, arr_set_in_range, js_add_nan by done.
    rewrite length_insert, list_insert_id by done. split; [done|lia].
  - pose proof Hv as Hge. apply lookup_ge_None in Hge.
    assert (i = length (realm st ObjectPrototype)) as Ei by lia.
    assert (Eg : arr_get (realm st ObjectPrototype) i = JUndefined)
      by (unfold arr_get; by rewrite Hv).
    rewrite Eg. cbv beta iota.
    rewrite realm_write_same, js_add_undefined.
    clearbody x. clear Hc Eg Hv Hge Hi. subst i. rewrite !arr_set_end.
    rewrite length_app. simpl. split; [|lia].
    apply Forall_app. split; [done|]. by constructor.
Qed.

Lemma inner_loop_all_nan src m : ∀ st i0,
  all_nan (realm st ObjectPrototype) → i0 ≤ length (realm st ObjectPrototype) →
  all_nan (realm (foldl (add_at (OnBuiltin ObjectPrototype) src) st (seq i0 m))
             ObjectPrototype)
  ∧ i0 + m
    ≤ length (realm (foldl (add_at (OnBuiltin ObjectPrototype) src) st
                       (seq i0 m)) ObjectPrototype)
  ∧ length (realm st ObjectPrototype)
    ≤ length (realm (foldl (add_at (OnBuiltin ObjectPrototype) src) st
                       (seq i0 m)) ObjectPrototype).
Proof.
  induction m as [|m IH]; intros st i0 HP Hi; simpl.
  - split; [done|lia].
  - destruct (add_at_all_nan src st i0 HP Hi) as (HP1 & Hi1 & Hle1).
    destruct (IH _ (S i0) HP1 Hi1) as (HP2 & Hi2 & Hle2).
    split; [done|lia].
Qed.

(** ** The loop, turn by turn *)

Lemma progress_0 rs : progress rs 0 = Store ∅ (dataPoints <$> rs) pristine.
Proof. done. Qed.

Lemma progress_S rs n r :
  rs !! n = Some r → progress rs (S n) = visit (progress rs n) (decode n r).
Proof.
  intros Hr. unfold progress, combine, parse. simpl.
  rewrite (take_S_r _ _ (decode n r)) by by rewrite list_lookup_imap, Hr.
  by rewrite foldl_app.
Qed.

Lemma aggregate_progress rs : aggregate rs = progress rs (length rs).
Proof.
  unfold aggregate, progress, parse. simpl.
  by rewrite take_ge by by rewrite length_imap.
Qed.

Lemma group_grows k (pre : list (series array)) r s :
  group k pre ≠ [] → group k (pre ++ [r]) = [s] → index_of r ≠ k.
Proof.
  intros Hne Hg Hk. rewrite group_snoc, decide_True in Hg by done.
  destruct (group k pre) as [|f [|g rest]]; [done|done|done].
Qed.

(** Visiting a record whose key reaches an inherited object. *)
Lemma data_get_inherited st k b :
  data st !! k = None → inherited k = Some b →
  data_get st k = Some (OnBuiltin b).
Proof. intros Hd Hb. unfold data_get. by rewrite Hd, Hb. Qed.

Lemma data_get_own st k :
  inherited k = None → data_get st k = InHeap <$> data st !! k.
Proof. intros Hk. unfold data_get. rewrite Hk. by destruct (data st !! k). Qed.

(** One turn of the outer loop keeps the invariant. *)
Lemma visit_inv rs pre r st :
  rs !! length pre = Some r →
  (∀ j s, pre !! j = Some s → rs !! j = Some s) →
  loop_inv rs pre st →
  loop_inv rs (pre ++ [r]) (visit st (decode (length pre) r)).
Proof.
  intros Hr Hpre (Hlen & HP & Hdata & Hmem & Hproto).
  set (n := length pre) in *.
  assert (Hn : ∃ A, mem st !! n = Some A ∧ A = dataPoints r).
  { destruct (Hmem n r Hr) as (A & HA & _ & HAeq). exists A. split; [done|].
    apply HAeq. left. intros E%first_at_lt. unfold n in E. lia. }
  destruct Hn as (B & HB & ->).
  assert (Hother : ∀ k, index_of r ≠ k →
            first_at k (pre ++ [r]) = first_at k pre
            ∧ group k (pre ++ [r]) = group k pre).
  { intros k Hk. rewrite first_at_snoc, group_snoc.
    rewrite !decide_False by done. rewrite app_nil_r.
    by destruct (first_at k pre). }
  unfold visit.
  change (index_of (decode n r)) with (index_of r).
  change (dataPoints (decode n r)) with n.
  destruct (inherited (index_of r)) as [b|] eqn:Hinh.
  - (* the key is an inherited name: the accumulator is a builtin *)
    rewrite (data_get_inherited st _ b) by (by rewrite ?Hdata, ?Hinh).
    set (st' := foldl (add_at (OnBuiltin b) n) st (indices st n)).
    destruct (inner_loop_frame (OnBuiltin b) n (indices st n) st)
      as (Fd & Fl & Fm & Fr). fold st' in Fd, Fl, Fm, Fr.
    assert (HP' : all_nan (realm st' ObjectPrototype)
                  ∧ length (realm st ObjectPrototype)
                    ≤ length (realm st' ObjectPrototype)
                  ∧ (b = ObjectPrototype →
                     length (dataPoints r)
                     ≤ length (realm st' ObjectPrototype))).
    { destruct (decide (b = ObjectPrototype)) as [->|Hb].
      - destruct (inner_loop_all_nan n
                    (length (props_of st (InHeap n))
                       `max` length (realm st ObjectPrototype)) st 0 HP)
          as (H1 & H2 & H3); [lia|].
        fold (indices st n) in H1, H2, H3. fold st' in H1, H2, H3.
        split; [done|]. split; [done|]. intros _.
        simpl in H2. rewrite HB in H2. simpl in H2. lia.
      - rewrite Fr by congruence. split; [done|]. split; [done|].
        congruence. }
    destruct HP' as (HP1 & HPle & HPr).
    split; [congruence|]. split; [done|]. split; [|split].
    + intros k. rewrite Fd, Hdata.
      destruct (inherited k) eqn:Hk; [done|].
      destruct (Hother k) as [-> _]; [congruence|done].
    + intros j s Hs. rewrite Fm by done.
      destruct (Hmem j s Hs) as (A & HA & Hk & HAeq).
      exists A. split; [done|]. split; [done|]. intros Hprem.
      apply HAeq. destruct (decide (index_of r = index_of s)) as [E|E].
      * right. left. rewrite <- E, Hinh. done.
      * destruct (Hother _ E) as [E1 E2]. by rewrite E1, E2 in Hprem.
    + intros j s Hj Hs Hk. rewrite length_app in Hj. simpl in Hj.
      destruct (decide (j = n)) as [->|Hjn].
      * assert (s = r) as -> by congruence.
        apply HPr. apply inherited_proto in Hk. congruence.
      * etrans; [apply (Hproto j s)|]; [unfold n in *; lia|done..].
  - (* an ordinary key *)
    rewrite data_get_own, Hdata, Hinh by done.
    destruct (first_at (index_of r) pre) as [a|] eqn:Hfirst; simpl.
    + (* a later record: the loop adds into the first record's array *)
      destruct (first_at_lookup _ _ _ Hfirst) as (sa & Hsa & Hka).
      pose proof (first_at_lt _ _ _ Hfirst) as Hlt.
      set (st' := foldl (add_at (InHeap a) n) st (indices st n)).
      destruct (inner_loop_frame (InHeap a) n (indices st n) st)
        as (Fd & Fl & Fm & Fr). fold st' in Fd, Fl, Fm, Fr.
      destruct (Hmem a sa (Hpre _ _ Hsa)) as (A & HA & HkA & _).
      destruct (inner_loop_keeps a n
                  (length (props_of st (InHeap n))
                     `max` length (realm st ObjectPrototype))
                  st 0 (dataPoints sa) A HP HA HkA) as (A' & HA' & HkA');
        [lia|].
      fold (indices st n) in HA'. fold st' in HA'.
      split; [congruence|]. split; [by rewrite Fr|]. split; [|split].
      * intros k. rewrite Fd, Hdata.
        destruct (inherited k) eqn:Hk; [done|].
        destruct (decide (index_of r = k)) as [<-|E].
        -- by rewrite first_at_snoc, Hfirst.
        -- by destruct (Hother k E) as [-> _].
      * intros j s Hs. destruct (decide (j = a)) as [->|Hja].
        -- assert (s = sa) as -> by (specialize (Hpre _ _ Hsa); congruence).
           exists A'. split; [done|]. split; [done|].
           rewrite Hka, first_at_snoc, Hfirst, Hinh.
           intros [H|[H|H]]; [done|done|].
           exfalso. apply (group_grows _ _ _ _) in H; [done|].
           intros Hnil%first_at_None. congruence.
        -- rewrite Fm by congruence.
           destruct (Hmem j s Hs) as (A1 & HA1 & Hk1 & HAeq).
           exists A1. split; [done|]. split; [done|]. intros Hprem.
           apply HAeq. destruct (decide (index_of r = index_of s)) as [E|E].
           ++ left. rewrite <- E, Hfirst. congruence.
           ++ destruct (Hother _ E) as [E1 E2]. by rewrite E1, E2 in Hprem.
      * intros j s Hj Hs Hk. rewrite length_app in Hj. simpl in Hj.
        rewrite Fr by done.
        destruct (decide (j = n)) as [->|Hjn].
        -- assert (s = r) as -> by congruence.
           apply inherited_proto in Hk. congruence.
        -- apply (Hproto j s); [unfold n in *; lia|done..].
    + (* the first record of its key: it is stored *)
      split; [done|]. split; [done|]. split; [|split]; simpl.
      * intros k. destruct (decide (index_of r = k)) as [<-|E].
        -- rewrite lookup_insert_eq, Hinh, first_at_snoc, Hfirst.
           by rewrite decide_True.
        -- rewrite lookup_insert_ne, Hdata by done.
           destruct (inherited k); [done|].
           by destruct (Hother k E) as [-> _].
      * intros j s Hs.
        destruct (Hmem j s Hs) as (A1 & HA1 & Hk1 & HAeq).
        exists A1. split; [done|]. split; [done|]. intros Hprem.
        apply HAeq. destruct (decide (index_of r = index_of s)) as [E|E].
        -- left. rewrite <- E, Hfirst. congruence.
        -- destruct (Hother _ E) as [E1 E2]. by rewrite E1, E2 in Hprem.
      * intros j s Hj Hs Hk. rewrite length_app in Hj. simpl in Hj.
        destruct (decide (j = n)) as [->|Hjn].
        -- assert (s = r) as -> by congruence.
           apply inherited_proto in Hk. congruence.
        -- apply (Hproto j s); [unfold n in *; lia|done..].
Qed.

Lemma progress_inv rs n :
  n ≤ length rs → loop_inv rs (take n rs) (progress rs n).
Proof.
  induction n as [|n IH]; intros Hn.
  - rewrite progress_0. unfold loop_inv. simpl.
    split; [by rewrite length_fmap|].
    split; [by constructor|]. split; [|split].
    + intros k. by destruct (inherited k).
    + intros j s Hs. exists (dataPoints s).
      split; [by rewrite list_lookup_fmap, Hs|].
      split; [apply keeps_refl|done].
    + intros j s Hj. lia.
  - destruct (lookup_lt_is_Some_2 rs n) as [r Hr]; [lia|].
    rewrite (progress_S _ _ _ Hr), (take_S_r _ _ _ Hr).
    assert (Hlen : length (take n rs) = n) by (rewrite length_take; lia).
    pose proof (visit_inv rs (take n rs) r (progress rs n)) as Hstep.
    rewrite Hlen in Hstep. apply Hstep.
    + done.
    + intros j s Hs. rewrite <- Hs. symmetry. apply lookup_take_lt.
      apply lookup_lt_Some in Hs. lia.
    + apply IH. lia.
Qed.

Lemma aggregate_inv rs : loop_inv rs rs (aggregate rs).
Proof.
  rewrite aggregate_progress.
  rewrite <- (take_ge rs (length rs)) at 2 by done.
  by apply progress_inv.
Qed.

(** ** A builtin no record is filed under stays as it was *)

Lemma visit_realm st item b :
  inherited (index_of item) ≠ Some b → realm (visit st item) b = realm st b.
Proof.
  intros Hb. unfold visit, data_get.
  destruct (data st !! index_of item) as [l|].
  - by destruct (inner_loop_frame (InHeap l) (dataPoints item)
                   (indices st (dataPoints item)) st) as (_ & _ & _ & ->).
  - destruct (inherited (index_of item)) as [b'|]; simpl; [|done].
    destruct (inner_loop_frame (OnBuiltin b') (dataPoints item)
                (indices st (dataPoints item)) st) as (_ & _ & _ & ->);
      congruence.
Qed.

Lemma progress_realm rs n b :
  n ≤ length rs →
  Forall (λ s, inherited (index_of s) ≠ Some b) (take n rs) →
  realm (progress rs n) b = [].
Proof.
  induction n as [|n IH]; intros Hn Hall; [done|].
  destruct (lookup_lt_is_Some_2 rs n) as [r Hr]; [lia|].
  rewrite (take_S_r _ _ _ Hr) in Hall.
  apply Forall_app in Hall as [Hpre Hlast].
  apply Forall_cons in Hlast as [Hlast _].
  rewrite (progress_S _ _ _ Hr), visit_realm by exact Hlast.
  apply IH; [lia|done].
Qed.

Lemma unpolluted_no_proto (rs : list (series array)) :
  unpolluted rs →
  Forall (λ s, inherited (index_of s) ≠ Some ObjectPrototype) rs.
Proof.
  intros Hun. eapply Forall_impl; [exact Hun|].
  simpl. intros s Hs E%inherited_proto. done.
Qed.

(** ** The inner loop in a realm without inherited index properties *)

Lemma add_at_heap st a src (A B : array) i :
  realm st ObjectPrototype = [] → a ≠ src →
  mem st !! a = Some A → mem st !! src = Some B →
  add_at (InHeap a) src st i
  = Store (data st) (<[a := add_elem B A i]> (mem st)) (realm st).
Proof.
  intros HP Hne HA HB. unfold add_at, add_elem.
  assert (Hc : ∀ l (C : array), mem st !! l = Some C →
                 cell st (InHeap l) i = arr_get C i).
  { intros l C HC. rewrite (cell_heap st l C i HC), HP. unfold arr_get.
    by destruct (C !! i). }
  rewrite (Hc a A HA), (Hc src B HB).
  assert (Hw : ∀ w, write (InHeap a) i w st
                    = Store (data st) (<[a := arr_set i w A]> (mem st))
                        (realm st)).
  { intros w. unfold write. simpl. by rewrite HA. }
  destruct (arr_get A i); rewrite ?Hw; try done.
  rewrite list_insert_id by done. by destruct st.
Qed.

Lemma inner_loop_on idxs st a src (A B : array) :
  realm st ObjectPrototype = [] → a ≠ src →
  mem st !! a = Some A → mem st !! src = Some B →
  foldl (add_at (InHeap a) src) st idxs
  = Store (data st) (<[a := foldl (add_elem B) A idxs]> (mem st)) (realm st).
Proof.
  revert st A. induction idxs as [|i idxs IH]; intros st A HP Hne HA HB; simpl.
  - rewrite list_insert_id by done. by destruct st.
  - rewrite (add_at_heap st a src A B) by done.
    rewrite (IH _ (add_elem B A i)); simpl.
    + by rewrite list_insert_insert_eq.
    + done.
    + done.
    + apply list_lookup_insert_eq. by eapply lookup_lt_Some.
    + by rewrite list_lookup_insert_ne.
Qed.

(** There the add loop of [visit] replaces the accumulator's array by its
    merge with the visited record's array and touches nothing else. *)
Lemma inner_loop st a src (A B : array) :
  realm st ObjectPrototype = [] → a ≠ src →
  mem st !! a = Some A → mem st !! src = Some B →
  foldl (add_at (InHeap a) src) st (indices st src)
  = Store (data st) (<[a := merge A B]> (mem st)) (realm st).
Proof.
  intros HP Hne HA HB. unfold indices. simpl. rewrite HB, HP. simpl.
  rewrite Nat.max_0_r, (inner_loop_on _ st a src A B) by done.
  by rewrite add_elem_merge.
Qed.

(** ** The running totals of a payload without a [__proto__] record *)

Lemma progress_sums rs n :
  n ≤ length rs → unpolluted (take n rs) →
  ∀ j s, rs !! j = Some s → inherited (index_of s) = None →
         first_at (index_of s) (take n rs) = Some j →
         mem (progress rs n) !! j = Some (total (index_of s) (take n rs)).
Proof.
  induction n as [|n IH]; intros Hn Hun j s Hs Hord Hj; [done|].
  destruct (lookup_lt_is_Some_2 rs n) as [r Hr]; [lia|].
  rewrite (take_S_r _ _ _ Hr) in Hun, Hj |- *.
  apply Forall_app in Hun as [Hpre Hlast].
  apply Forall_cons in Hlast as [Hlast _].
  specialize (IH ltac:(lia) Hpre).
  pose proof (progress_realm rs n ObjectPrototype ltac:(lia)
                (unpolluted_no_proto _ Hpre)) as HP.
  destruct (progress_inv rs n ltac:(lia)) as (_ & _ & Hdata & Hmem & _).
  assert (Hlen : length (take n rs) = n) by (rewrite length_take; lia).
  assert (HB : mem (progress rs n) !! n = Some (dataPoints r)).
  { destruct (Hmem n r Hr) as (A & HA & _ & HAeq). rewrite HA. f_equal.
    apply HAeq. left. intros E%first_at_lt. lia. }
  rewrite (progress_S _ _ _ Hr). unfold visit.
  change (index_of (decode n r)) with (index_of r).
  change (dataPoints (decode n r)) with n.
  destruct (inherited (index_of r)) as [b|] eqn:Hinh.
  - rewrite (data_get_inherited _ _ b) by (by rewrite ?Hdata, ?Hinh).
    destruct (inner_loop_frame (OnBuiltin b) n
                (indices (progress rs n) n) (progress rs n))
      as (_ & _ & Fm & _).
    rewrite Fm by done.
    assert (E : index_of r ≠ index_of s) by congruence.
    rewrite first_at_snoc, decide_False in Hj by done.
    rewrite total_snoc_other by done. apply IH; [done..|].
    by destruct (first_at (index_of s) (take n rs)).
  - rewrite data_get_own, Hdata, Hinh by done.
    destruct (first_at (index_of r) (take n rs)) as [a|] eqn:Hfirst; simpl.
    + destruct (first_at_lookup _ _ _ Hfirst) as (sa & Hsa & Hka).
      pose proof (first_at_lt _ _ _ Hfirst) as Hlt.
      assert (Hsa' : rs !! a = Some sa).
      { rewrite <- Hsa. symmetry. apply lookup_take_lt. lia. }
      assert (HA : mem (progress rs n) !! a
                   = Some (total (index_of r) (take n rs))).
      { rewrite <- Hka. apply IH; [done| |by rewrite Hka].
        rewrite Hka. done. }
      rewrite (inner_loop _ a n _ _ HP ltac:(lia) HA HB). simpl.
      destruct (decide (index_of r = index_of s)) as [E|E].
      * rewrite <- E, first_at_snoc, Hfirst in Hj. injection Hj as <-.
        rewrite list_lookup_insert_eq by by eapply lookup_lt_Some.
        by rewrite <- E, (total_snoc_later _ _ _ Hfirst).
      * rewrite first_at_snoc, decide_False in Hj by done.
        rewrite total_snoc_other by done.
        assert (Hj' : first_at (index_of s) (take n rs) = Some j)
          by by destruct (first_at (index_of s) (take n rs)).
        rewrite list_lookup_insert_ne; [by apply IH|].
        intros <-. destruct (first_at_lookup _ _ _ Hj') as (s' & Hs' & Hk').
        congruence.
    + destruct (decide (index_of r = index_of s)) as [E|E].
      * rewrite <- E, first_at_snoc, Hfirst, decide_True in Hj by done.
        injection Hj as <-. rewrite Hlen in *.
        assert (s = r) as -> by congruence.
        by rewrite total_snoc_first.
      * rewrite first_at_snoc, decide_False in Hj by done.
        rewrite total_snoc_other by done. apply IH; [done..|].
        by destruct (first_at (index_of s) (take n rs)).
Qed.

(** ** The loop on a whole payload *)

Lemma aggregate_data rs k :
  data (aggregate rs) !! k
  = match inherited k with
    | Some _ => None
    | None => first_at k rs
    end.
Proof. by destruct (aggregate_inv rs) as (_ & _ & H & _). Qed.

(** The entry of a key, whatever the payload: the key is no inherited name,
    it has records, and the entry keeps what [keeps] says of the first of
    them. *)
Lemma contents_entry rs k (out : array) :
  contents (aggregate rs) !! k = Some out ↔
  inherited k = None
  ∧ ∃ j f, first_at k rs = Some j ∧ rs !! j = Some f
           ∧ mem (aggregate rs) !! j = Some out.
Proof.
  unfold contents. rewrite lookup_fmap, aggregate_data.
  destruct (aggregate_inv rs) as (_ & _ & _ & Hmem & _).
  destruct (inherited k) eqn:Hk.
  { split; [done|]. by intros [? _]. }
  destruct (first_at k rs) as [j|] eqn:Hj; simpl.
  - destruct (first_at_lookup _ _ _ Hj) as (f & Hf & Hkf).
    destruct (Hmem j f Hf) as (A & HA & _). rewrite HA. simpl. split.
    + intros [= <-]. split; [done|]. by exists j, f.
    + intros (_ & j' & f' & [= <-] & _ & E). congruence.
  - split; [done|]. by intros (_ & j' & f' & ? & _).
Qed.

Lemma group_first k rs f rest :
  group k rs = f :: rest →
  ∃ j, first_at k rs = Some j ∧ rs !! j = Some f ∧ index_of f = k.
Proof.
  unfold group, first_at. induction rs as [|r rs IH]; [done|].
  rewrite filter_cons. simpl. case_decide as Hr.
  - intros [= <- _]. by exists 0.
  - intros Hg. destruct (IH Hg) as (j & Hj & Hf & Hk).
    exists (S j). split; [|done].
    destruct (list_find _ rs) as [[i x]|]; simpl in *; congruence.
Qed.

Lemma entry_exists rs k f rest :
  inherited k = None → group k rs = f :: rest →
  ∃ out, contents (aggregate rs) !! k = Some out
         ∧ keeps (dataPoints f) out
         ∧ (rest = [] → out = dataPoints f).
Proof.
  intros Hk Hg. destruct (group_first _ _ _ _ Hg) as (j & Hj & Hf & Hkf).
  destruct (aggregate_inv rs) as (_ & _ & _ & Hmem & _).
  destruct (Hmem j f Hf) as (A & HA & HkA & HAeq).
  exists A. split; [|split; [done|]].
  - apply contents_entry. split; [done|]. by exists j, f.
  - intros ->. apply HAeq. right. right. by rewrite Hkf.
Qed.

(** The returned object of a payload without a [__proto__] record, key by
    key: no entry for an inherited name or a key without records, otherwise
    the first record's array with the later ones merged into it in payload
    order. *)
Lemma contents_aggregate rs k :
  unpolluted rs →
  contents (aggregate rs) !! k
  = match inherited k with
    | Some _ => None
    | None =>
        match group k rs with
        | [] => None
        | f :: rest => Some (foldl merge (dataPoints f) (dataPoints <$> rest))
        end
    end.
Proof.
  intros Hun. unfold contents. rewrite lookup_fmap, aggregate_data.
  destruct (inherited k) eqn:Hk; [done|].
  destruct (first_at k rs) as [j|] eqn:Hj.
  - destruct (first_at_lookup _ _ _ Hj) as (s & Hs & Hks). simpl.
    pose proof (progress_sums rs (length rs) ltac:(lia)) as Hsum.
    rewrite <- aggregate_progress, take_ge in Hsum by done.
    rewrite (Hsum Hun j s Hs) by (by rewrite Hks). simpl.
    rewrite Hks. unfold total, totals.
    destruct (group k rs) as [|f rest] eqn:Hg; [|done].
    apply first_at_None in Hg. congruence.
  - apply first_at_None in Hj. by rewrite Hj.
Qed.

(** ** More on keys and entries *)

Lemma key_split_date (n1 n2 d1 d2 : string) :
  has_underscore d1 = false → has_underscore d2 = false →
  n1 +:+ "_" +:+ d1 = n2 +:+ "_" +:+ d2 → n1 = n2 ∧ d1 = d2.
Proof.
  intros H1 H2. revert n2. induction n1 as [|c n1 IH]; intros [|c' n2];
    rewrite ?append_cons, ?append_nil.
  - intros [= ->]. done.
  - intros [= _ E]. rewrite E, has_underscore_sep in H1. done.
  - intros [= _ E]. rewrite <- E, has_underscore_sep in H2. done.
  - intros [= -> E]. destruct (IH n2 E) as [-> ->]. done.
Qed.


Lemma unpolluted_filter (P : series array → Prop) `{!∀ s, Decision (P s)} rs :
  unpolluted rs → unpolluted (filter P rs).
Proof.
  intros Hun. apply Forall_forall. intros s Hs%list_elem_of_filter.
  by apply (proj1 (Forall_forall _ _) Hun), Hs.
Qed.

(** An entry, whatever the payload: its key is no inherited name, the key
    has records, and the entry keeps what [keeps] says of the first. *)
Lemma contents_keeps rs k (out : array) :
  contents (aggregate rs) !! k = Some out →
  inherited k = None
  ∧ ∃ f rest, group k rs = f :: rest ∧ keeps (dataPoints f) out.
Proof.
  intros (Hk & j & f & Hj & Hf & Hout)%contents_entry. split; [done|].
  destruct (group k rs) as [|f' rest] eqn:Hg.
  { apply first_at_None in Hg. congruence. }
  destruct (group_first _ _ _ _ Hg) as (j' & Hj' & Hf' & _).
  assert (j' = j) as -> by congruence. assert (f' = f) as -> by congruence.
  exists f, rest. split; [done|].
  destruct (aggregate_inv rs) as (_ & _ & _ & Hmem & _).
  destruct (Hmem j f Hf) as (A & HA & HkA & _). congruence.
Qed.

(** A turn of the loop changes no array but the one its key leads to. *)
Lemma progress_frame rs n r l :
  rs !! n = Some r → data (progress rs n) !! index_of r ≠ Some l →
  mem (progress rs (S n)) !! l = mem (progress rs n) !! l.
Proof.
  intros Hr Hl. rewrite (progress_S _ _ _ Hr). unfold visit, data_get.
  change (index_of (decode n r)) with (index_of r).
  destruct (data (progress rs n) !! index_of r) as [a|].
  - destruct (inner_loop_frame (InHeap a) (dataPoints (decode n r))
                (indices (progress rs n) (dataPoints (decode n r)))
                (progress rs n)) as (_ & _ & Fm & _).
    apply Fm. congruence.
  - destruct (inherited (index_of r)) as [b|]; simpl; [|done].
    destruct (inner_loop_frame (OnBuiltin b) (dataPoints (decode n r))
                (indices (progress rs n) (dataPoints (decode n r)))
                (progress rs n)) as (_ & _ & Fm & _).
    by apply Fm.
Qed.

(** The array of one key's entry is not written when a record of another
    key is visited. *)
Lemma other_key_frame rs k1 k2 l1 n s :
  first_at k1 rs = Some l1 → k1 ≠ k2 →
  rs !! n = Some s → index_of s = k2 →
  mem (progress rs (S n)) !! l1 = mem (progress rs n) !! l1.
Proof.
  intros H1 Hne Hs Hk. apply (progress_frame _ _ _ _ Hs).
  pose proof (lookup_lt_Some _ _ _ Hs) as Hn.
  destruct (progress_inv rs n ltac:(lia)) as (_ & _ & Hdata & _).
  rewrite Hdata, Hk. destruct (inherited k2); [done|].
  intros (s2 & Hs2 & Hk2)%first_at_lookup.
  destruct (first_at_lookup _ _ _ H1) as (s1 & Hs1 & Hk1).
  pose proof (lookup_lt_Some _ _ _ Hs2) as Hlt. rewrite length_take in Hlt.
  rewrite lookup_take_lt in Hs2 by lia. congruence.
Qed.

(** * The claims about the aggregator *)

(** C1 (as the code has it).  In a payload without a record filed under
    [__proto__], for a key that is no inherited name and whose records hold
    numbers or [null] and have one common length [n]: the returned object
    maps the key to an array of length [n] whose value at index [i] is
    [null] exactly when the first-seen record holds [null] there, and
    otherwise the sum, in payload order, of the values at [i] of all records
    under the key, a [null] of a later record counting as [0]. *)
Theorem aggregate_sums_per_index rs k f rest n :
  unpolluted rs → inherited k = None →
  group k rs = f :: rest →
  Forall (λ s, length (dataPoints s) = n
               ∧ Forall number_or_null (dataPoints s)) (f :: rest) →
  ∃ out, contents (aggregate rs) !! k = Some out
    ∧ length out = n
    ∧ ∀ i, i < n →
        out !! i
        = Some (if is_null (arr_get (dataPoints f) i) then JNull
                else JNumber (sum_at i (dataPoints f) (dataPoints <$> rest))).
Proof.
  intros Hun Hk Hg [[Hf Hnum] Hrest]%Forall_cons.
  destruct (foldl_merge_sums (dataPoints <$> rest) (dataPoints f))
    as (Hlen & _ & Hat); [|done|].
  { apply Forall_fmap. eapply Forall_impl; [exact Hrest|].
    simpl. intros s [-> _]. done. }
  eexists. split; [by rewrite contents_aggregate, Hk, Hg|].
  split; [congruence|]. intros i Hi.
  rewrite <- Hat by lia. apply arr_get_lookup. lia.
Qed.

(** C1, the payload [pdc_one; pdc_two; etotal_one]: index 0 holds 1 + 2,
    index 1 stays [null]. *)
Lemma aggregate_sums_per_index_witness :
  ∃ out, contents (aggregate [pdc_one; pdc_two; etotal_one])
           !! "ProdPdc_2024-01-01" = Some out
    ∧ length out = 2
    ∧ ∀ i, i < 2 →
        out !! i
        = Some (if is_null (arr_get (dataPoints pdc_one) i) then JNull
                else JNumber (sum_at i (dataPoints pdc_one)
                                (dataPoints <$> [pdc_two]))).
Proof.
  apply (aggregate_sums_per_index [pdc_one; pdc_two; etotal_one]
           "ProdPdc_2024-01-01" pdc_one [pdc_two] 2).
  - repeat constructor; discriminate.
  - reflexivity.
  - reflexivity.
  - repeat constructor.
Defined.

(** C1 as stated fails: the later record holds [null] at index 0, and the
    aggregate there is the number 1, not [null]. *)
Lemma later_null_counts_as_zero :
  index_of null_later = "ProdPdc_2024-01-01"
  ∧ dataPoints null_later !! 0 = Some JNull
  ∧ contents (aggregate [numeric_first; null_later]) !! "ProdPdc_2024-01-01"
    = Some [JNumber 1].
Proof. repeat split; vm_compute; reflexivity. Qed.

(** C2 at its failing input.  Two records filed under [__proto__]:
    [data.__proto__] reads as [Object.prototype], which is truthy, so the
    first record is not stored and the returned object stays empty; the
    add loop runs for both records and writes [NaN] onto
    [Object.prototype]. *)
Lemma proto_key_is_never_seeded :
  index_of proto_one = "__proto__"
  ∧ index_of proto_two = "__proto__"
  ∧ map_to_list (contents (aggregate [proto_one; proto_two])) = []
  ∧ realm (aggregate [proto_one; proto_two]) ObjectPrototype
    = [JNumber nan; JNumber nan].
Proof. repeat split; vm_compute; reflexivity. Qed.

(** C3 (as the code has it).  Two records of a payload that differ in name
    or in date, whose names (or whose dates) hold no underscore and whose
    keys are no inherited names, are filed under different keys; the two
    keys' entries are different arrays; the array of either entry is never
    written when a record of the other key is visited; and in a payload
    without a [__proto__] record each entry is what it would be had the
    other key's records not been sent. *)
Theorem distinct_keys_never_merge rs (r1 r2 : series array) :
  r1 ∈ rs → r2 ∈ rs →
  name r1 ≠ name r2 ∨ date r1 ≠ date r2 →
  has_underscore (name r1) = false ∧ has_underscore (name r2) = false
  ∨ has_underscore (date r1) = false ∧ has_underscore (date r2) = false →
  inherited (index_of r1) = None → inherited (index_of r2) = None →
  index_of r1 ≠ index_of r2
  ∧ ∃ l1 l2,
      data (aggregate rs) !! index_of r1 = Some l1
      ∧ data (aggregate rs) !! index_of r2 = Some l2
      ∧ l1 ≠ l2
      ∧ (∀ n s, rs !! n = Some s → index_of s = index_of r2 →
                mem (progress rs (S n)) !! l1 = mem (progress rs n) !! l1)
      ∧ (∀ n s, rs !! n = Some s → index_of s = index_of r1 →
                mem (progress rs (S n)) !! l2 = mem (progress rs n) !! l2)
      ∧ (unpolluted rs →
         contents (aggregate rs) !! index_of r1
         = contents (aggregate (filter (λ s, index_of s ≠ index_of r2) rs))
             !! index_of r1
         ∧ contents (aggregate rs) !! index_of r2
           = contents (aggregate (filter (λ s, index_of s ≠ index_of r1) rs))
               !! index_of r2).
Proof.
  intros Hin1 Hin2 Hdiff Hu Hk1 Hk2.
  assert (Hne : index_of r1 ≠ index_of r2).
  { intros E. destruct Hu as [[Hu1 Hu2]|[Hu1 Hu2]].
    - destruct (key_split _ _ _ _ Hu1 Hu2 E). tauto.
    - destruct (key_split_date _ _ _ _ Hu1 Hu2 E). tauto. }
  split; [done|].
  destruct (first_at_elem _ _ _ Hin1 eq_refl) as [l1 H1].
  destruct (first_at_elem _ _ _ Hin2 eq_refl) as [l2 H2].
  exists l1, l2. rewrite !aggregate_data, Hk1, Hk2.
  split; [done|]. split; [done|]. split.
  { intros <-.
    destruct (first_at_lookup _ _ _ H1) as (s1 & Hs1 & Hs1k).
    destruct (first_at_lookup _ _ _ H2) as (s2 & Hs2 & Hs2k).
    congruence. }
  split.
  { intros n s Hs Hk.
    by apply (other_key_frame rs (index_of r1) (index_of r2) l1 n s). }
  split.
  { intros n s Hs Hk.
    by apply (other_key_frame rs (index_of r2) (index_of r1) l2 n s). }
  intros Hun.
  rewrite !contents_aggregate, !group_without
    by (done || by apply unpolluted_filter).
  done.
Qed.

(** C3, the payload [pdc_one; pdc_two; etotal_one]: the two channels of one
    day keep separate entries. *)
Lemma distinct_keys_never_merge_witness :
  index_of pdc_one ≠ index_of etotal_one
  ∧ ∃ l1 l2,
      data (aggregate [pdc_one; pdc_two; etotal_one]) !! index_of pdc_one
      = Some l1
      ∧ data (aggregate [pdc_one; pdc_two; etotal_one]) !! index_of etotal_one
        = Some l2
      ∧ l1 ≠ l2
      ∧ (∀ n s, [pdc_one; pdc_two; etotal_one] !! n = Some s →
                index_of s = index_of etotal_one →
                mem (progress [pdc_one; pdc_two; etotal_one] (S n)) !! l1
                = mem (progress [pdc_one; pdc_two; etotal_one] n) !! l1)
      ∧ (∀ n s, [pdc_one; pdc_two; etotal_one] !! n = Some s →
                index_of s = index_of pdc_one →
                mem (progress [pdc_one; pdc_two; etotal_one] (S n)) !! l2
                = mem (progress [pdc_one; pdc_two; etotal_one] n) !! l2)
      ∧ (unpolluted [pdc_one; pdc_two; etotal_one] →
         contents (aggregate [pdc_one; pdc_two; etotal_one])
           !! index_of pdc_one
         = contents (aggregate (filter (λ s, index_of s ≠ index_of etotal_one)
                                  [pdc_one; pdc_two; etotal_one]))
             !! index_of pdc_one
         ∧ contents (aggregate [pdc_one; pdc_two; etotal_one])
             !! index_of etotal_one
           = contents (aggregate (filter (λ s, index_of s ≠ index_of pdc_one)
                                    [pdc_one; pdc_two; etotal_one]))
               !! index_of etotal_one).
Proof.
  apply (distinct_keys_never_merge [pdc_one; pdc_two; etotal_one]
           pdc_one etotal_one).
  - repeat constructor.
  - repeat constructor.
  - left. discriminate.
  - left. split; reflexivity.
  - reflexivity.
  - reflexivity.
Defined.

(** C3 as stated fails: these two records differ in name and in date, are
    filed under one key all the same, and the single entry of the returned
    object holds their sum. *)
Lemma keys_can_collide :
  name split_early ≠ name split_late
  ∧ date split_early ≠ date split_late
  ∧ index_of split_early = index_of split_late
  ∧ map_to_list (contents (aggregate [split_early; split_late]))
    = [("P_x_1", [JNumber 3])].
Proof.
  split; [vm_compute; discriminate|].
  split; [vm_compute; discriminate|].
  split; vm_compute; reflexivity.
Qed.

(** C4 at its failing input.  The payload holds exactly one record under
    the key [__proto__]; the returned object has no entry under that key
    (nor any other), instead of the record's [dataPoints]. *)
Lemma lone_proto_record_has_no_entry :
  group "__proto__" [proto_one] = [proto_one]
  ∧ contents (aggregate [proto_one]) !! "__proto__" = None
  ∧ map_to_list (contents (aggregate [proto_one])) = [].
Proof. repeat split; vm_compute; reflexivity. Qed.

(** C9 at its failing input.  Of two records filed under [__proto__] the
    first neither becomes an entry of the returned object nor ends up
    holding any sum: both arrays stay as sent, and what the loop adds goes
    to [Object.prototype]. *)
Lemma proto_records_stay_as_sent :
  data (aggregate [proto_one; proto_two]) !! "__proto__" = None
  ∧ mem (aggregate [proto_one; proto_two])
    = [[JNumber 1; JNumber 2]; [JNumber 5; JNumber 6]]
  ∧ realm (aggregate [proto_one; proto_two]) ObjectPrototype
    = [JNumber nan; JNumber nan].
Proof. repeat split; vm_compute; reflexivity. Qed.

(** C10 at its failing input.  The two records under [P_d] both have
    length 1, but they come after a record filed under [__proto__] that
    left three index properties on [Object.prototype]: the add loop visits
    those inherited indices too, and the entry is three values long. *)
Lemma polluted_entry_outgrows_first_record :
  group "P_d" [proto_long; plain_five; plain_six] = [plain_five; plain_six]
  ∧ length (dataPoints plain_five) = 1
  ∧ length (dataPoints plain_six) = 1
  ∧ contents (aggregate [proto_long; plain_five; plain_six]) !! "P_d"
    = Some [JNumber 11; JNumber nan; JNumber nan].
Proof. repeat split; vm_compute; reflexivity. Qed.

(** * The claims about the client *)

Lemma bind_fulfilled {A B} (m : async A) (k : A → async B) a :
  m.2 = Fulfilled a → m ≫= k = (m.1 ++ (k a).1, (k a).2).
Proof. intros H. unfold mbind, async_bind. by rewrite H. Qed.

Lemma bind_rejected {A B} (m : async A) (k : A → async B) e :
  m.2 = Rejected e → m ≫= k = (m.1, Rejected e).
Proof. intros H. unfold mbind, async_bind. by rewrite H. Qed.

(** A continuation that only computes a value sends nothing. *)
Lemma bind_ret_requests {A B} (m : async A) (f : A → B) :
  (m ≫= λ a, mret (f a)).1 = m.1.
Proof.
  unfold mbind, async_bind. destruct (m.2); simpl; [|done].
  by rewrite app_nil_r.
Qed.

Lemma sublist_filter_mono {A} (P : A → Prop) `{!∀ x, Decision (P x)}
    (l k : list A) :
  l `sublist_of` k → filter P l `sublist_of` filter P k.
Proof.
  induction 1 as [|x l k _ IH|x l k _ IH]; [done| |].
  - rewrite !filter_cons. case_decide; [by constructor|done].
  - rewrite filter_cons. case_decide; [by constructor|done].
Qed.

Lemma filter_all {A} (P : A → Prop) `{!∀ x, Decision (P x)} (l : list A) :
  Forall P l → filter P l = l.
Proof.
  induction 1 as [|x l Hx _ IH]; [done|].
  by rewrite filter_cons_True, IH.
Qed.

(** C5.  When the components call returns a list, [get_inverters] returns
    a sublist of it (so in the original relative order) that holds the
    records whose [type] is the string ["Inverter"] and no other, and that
    every sublist of such records is a sublist of: no occurrence is lost. *)
Theorem get_inverters_keeps_inverters net st plantId date
    (cs : list component) :
  (components net st plantId date).2 = Fulfilled cs →
  ∃ inverters,
    (get_inverters net st plantId date).2 = Fulfilled inverters
    ∧ inverters `sublist_of` cs
    ∧ (∀ c, c ∈ inverters
            ↔ c ∈ cs ∧ c !! "type" = Some (JsonString "Inverter"))
    ∧ (∀ l, l `sublist_of` cs → Forall is_inverter l →
            l `sublist_of` inverters).
Proof.
  intros Hcs. exists (filter is_inverter cs).
  split; [unfold get_inverters; by rewrite (bind_fulfilled _ _ _ Hcs)|].
  split; [apply sublist_filter|]. split.
  - intros c. rewrite list_elem_of_filter. unfold is_inverter. tauto.
  - intros l Hl Hall. rewrite <- (filter_all is_inverter l Hall).
    by apply sublist_filter_mono.
Qed.

(** C5, on a list of four components: the two inverters come back, in
    their order. *)
Lemma get_inverters_keeps_inverters_witness :
  ∃ inverters,
    (get_inverters (fixed_portal 200 ∅ mixed_components [])
       (new_client "demo" None None) "plant" "2024-01-01").2
    = Fulfilled inverters
    ∧ inverters `sublist_of` mixed_components
    ∧ (∀ c, c ∈ inverters
            ↔ c ∈ mixed_components
              ∧ c !! "type" = Some (JsonString "Inverter"))
    ∧ (∀ l, l `sublist_of` mixed_components → Forall is_inverter l →
            l `sublist_of` inverters).
Proof.
  apply (get_inverters_keeps_inverters
           (fixed_portal 200 ∅ mixed_components [])
           (new_client "demo" None None) "plant" "2024-01-01"
           mixed_components).
  reflexivity.
Defined.

Example get_inverters_mixed :
  (get_inverters (fixed_portal 200 ∅ mixed_components [])
     (new_client "demo" None None) "plant" "2024-01-01").2
  = Fulfilled [inverter_one; inverter_two].
Proof. vm_compute. reflexivity. Qed.

(** C6.  [get_combined_inverter_data] sends one request, the one
    [crossEpochChannels] sends for the caller's plant, component ids and
    date bounds with the channel names [ProdPdc] and [ProdEtotal]; when that
    call is rejected the method is rejected with the same error and returns
    no object; when it is fulfilled the method returns the aggregate of the
    response. *)
Theorem combined_data_delegates net st plantId inverters dateFrom dateTo :
  (get_combined_inverter_data net st plantId inverters dateFrom dateTo).1
  = [Request GET (baseURL st)
       ("/api/v1/" +:+ portal st +:+ "/visualization/plant/" +:+ plantId
          +:+ "/cross-epoch/channels")
       [("xComponentIds", PList inverters);
        ("channelNames", PList ["ProdPdc"; "ProdEtotal"]);
        ("dateFrom", PString dateFrom);
        ("dateTo", PString dateTo)]
       [] (headers_of st ∅)]
  ∧ (get_combined_inverter_data net st plantId inverters dateFrom dateTo).1
    = (crossEpochChannels net st plantId inverters ["ProdPdc"; "ProdEtotal"]
         dateFrom dateTo).1
  ∧ (∀ e,
       (crossEpochChannels net st plantId inverters ["ProdPdc"; "ProdEtotal"]
          dateFrom dateTo).2 = Rejected e →
       (get_combined_inverter_data net st plantId inverters dateFrom dateTo).2
       = Rejected e)
  ∧ (∀ epoch_res,
       (crossEpochChannels net st plantId inverters ["ProdPdc"; "ProdEtotal"]
          dateFrom dateTo).2 = Fulfilled epoch_res →
       (get_combined_inverter_data net st plantId inverters dateFrom dateTo).2
       = Fulfilled (aggregate epoch_res)).
Proof.
  unfold get_combined_inverter_data.
  split; [by rewrite bind_ret_requests|].
  split; [by rewrite bind_ret_requests|]. split.
  - intros e He. by rewrite (bind_rejected _ _ _ He).
  - intros rs Hrs. by rewrite (bind_fulfilled _ _ _ Hrs).
Qed.

Example combined_data_fulfilled :
  ∃ st, (get_combined_inverter_data (fixed_portal 200 ∅ [] [A_rec; B_rec])
           (new_client "demo" None None) "plant" ["a1"] "2024-01-01" "today").2
        = Fulfilled st
    ∧ contents st !! "P_2024-01-01" = Some [JNumber 4; JNumber 6; JNull].
Proof. eexists. split; [reflexivity|]. vm_compute. reflexivity. Qed.

Example combined_data_rejected :
  get_combined_inverter_data (fixed_portal 500 ∅ [] [A_rec; B_rec])
    (new_client "demo" None None) "plant" ["a1"] "2024-01-01" "today"
  = ((crossEpochChannels (fixed_portal 500 ∅ [] [A_rec; B_rec])
        (new_client "demo" None None) "plant" ["a1"]
        ["ProdPdc"; "ProdEtotal"] "2024-01-01" "today").1,
     Rejected (BadStatus 500)).
Proof. reflexivity. Qed.

(** ** Header lines *)

Lemma no_line (k : string) (l : list (string * string)) :
  k ∉ l.*1 → filter (λ line, line.1 = k) l = [].
Proof.
  induction l as [|[k' v] l IH]; [done|]. simpl.
  intros Hk. apply not_elem_of_cons in Hk as [Hne Hk].
  rewrite filter_cons_False by (simpl; congruence). by apply IH.
Qed.

Lemma one_line (k v : string) (l : list (string * string)) :
  NoDup l.*1 → (k, v) ∈ l → filter (λ line, line.1 = k) l = [(k, v)].
Proof.
  induction l as [|[k' v'] l IH]; simpl.
  - intros _ Hin. by apply elem_of_nil in Hin.
  - intros [Hk' Hnd]%NoDup_cons [[= <- <-]|Hin]%elem_of_cons.
    + rewrite filter_cons_True by done. by rewrite no_line.
    + rewrite filter_cons_False; [by apply IH|].
      simpl. intros ->. apply Hk'.
      apply list_elem_of_fmap. by exists (k, v).
Qed.

Lemma lines_present (m : gmap string string) k v :
  m !! k = Some v →
  filter (λ line, line.1 = k) (map_to_list m) = [(k, v)].
Proof.
  intros Hm. apply one_line.
  - apply NoDup_fst_map_to_list.
  - by apply elem_of_map_to_list.
Qed.

Lemma lines_absent (m : gmap string string) k :
  m !! k = None → filter (λ line, line.1 = k) (map_to_list m) = [].
Proof.
  intros Hm. apply no_line.
  intros ([k' v] & -> & Hin)%list_elem_of_fmap.
  apply elem_of_map_to_list in Hin. simpl in Hm. congruence.
Qed.

(** Neither the instance nor a read call names an [Authorization] header:
    a request carries the one of [defaults.headers.common], if any. *)
Lemma headers_of_authorization st :
  headers_of st ∅ !! "Authorization" = common st !! "Authorization".
Proof.
  unfold headers_of. rewrite lookup_union_r; [done|].
  rewrite lookup_union_r; [|done]. reflexivity.
Qed.

(** Every read method sends one GET request with the instance's headers. *)
Lemma requests_of_one net st call :
  ∃ r, requests_of net st call = [r]
       ∧ req_method r = GET
       ∧ req_headers r = headers_of st ∅.
Proof.
  destruct call; simpl;
    unfold get_inverters, get_combined_inverter_data;
    rewrite ?bind_ret_requests; eexists; (split; [reflexivity|done]).
Qed.

Lemma read_call_authorization net st call tok :
  common st !! "Authorization" = tok →
  ∃ r, requests_of net st call = [r]
       ∧ authorization_lines r
         = match tok with
           | Some v => [("Authorization", v)]
           | None => []
           end.
Proof.
  intros Hc. destruct (requests_of_one net st call) as (r & Hr & _ & Hh).
  exists r. split; [done|]. unfold authorization_lines. rewrite Hh.
  destruct tok as [v|].
  - apply lines_present. by rewrite headers_of_authorization.
  - apply lines_absent. by rewrite headers_of_authorization.
Qed.

(** What [login] does, by the answer to its one request. *)
Lemma login_settles net st client_id client_secret :
  (login net st client_id client_secret).1
  = [token_request st client_id client_secret]
  ∧ (login net st client_id client_secret).2
    = match settle (post_token net
                      (token_request st client_id client_secret)) with
      | Fulfilled res_data =>
          Fulfilled
            (Client (portal st) (baseURL st) (authURL st)
               (res_data !! "access_token")
               (<["Authorization" :=
                    "Bearer " +:+ template (res_data !! "access_token")]>
                  (common st)))
      | Rejected e => Rejected e
      end.
Proof.
  unfold login, mbind, async_bind, send. simpl.
  destruct (settle _); simpl; done.
Qed.

(** C7 (as the code has it).  [login] sends one token request.  It is
    rejected when the request gets no answer or an answer whose status is
    not in 200..299.  On any answer with such a status it succeeds: it
    stores the payload's [access_token] field, [undefined] when the payload
    has none, and from then on every read call carries the one header
    [Authorization: Bearer <that token's text>]. *)
Theorem login_outcome net st client_id client_secret :
  (login net st client_id client_secret).1
  = [token_request st client_id client_secret]
  ∧ (post_token net (token_request st client_id client_secret)
     = NetworkError →
     (login net st client_id client_secret).2 = Rejected NetworkFailure)
  ∧ (∀ status res_data,
       post_token net (token_request st client_id client_secret)
       = Response status res_data →
       ¬ (200 ≤ status < 300) →
       (login net st client_id client_secret).2
       = Rejected (BadStatus status))
  ∧ (∀ status res_data,
       post_token net (token_request st client_id client_secret)
       = Response status res_data →
       200 ≤ status < 300 →
       ∃ st', (login net st client_id client_secret).2 = Fulfilled st'
         ∧ access_token st' = res_data !! "access_token"
         ∧ ∀ net' call, ∃ r,
             requests_of net' st' call = [r]
             ∧ authorization_lines r
               = [("Authorization",
                   "Bearer " +:+ template (res_data !! "access_token"))]).
Proof.
  destruct (login_settles net st client_id client_secret) as [Hlog Hres].
  split; [done|]. rewrite Hres. split; [by intros ->|]. split.
  - intros status res_data -> Hstatus. unfold settle.
    destruct (Nat.leb_spec 200 status); [|done].
    destruct (Nat.ltb_spec status 300); [|done]. lia.
  - intros status res_data -> [H1 H2]. unfold settle.
    apply Nat.leb_le in H1. apply Nat.ltb_lt in H2. rewrite H1, H2.
    eexists. split; [done|]. split; [done|]. intros net' call.
    apply (read_call_authorization net' _ call (Some _)).
    simpl. by rewrite lookup_insert_eq.
Qed.

(** C7 as stated fails: the portal answers 200 with an object that has no
    [access_token] field, and [login] is fulfilled; the stored token is
    [undefined] and the header reads [Bearer undefined]. *)
Lemma login_without_token_succeeds :
  post_token (fixed_portal 200 ∅ [] [])
    (token_request (new_client "demo" None None) "id" "secret")
  = Response 200 ∅
  ∧ ∃ st', (login (fixed_portal 200 ∅ [] []) (new_client "demo" None None)
              "id" "secret").2 = Fulfilled st'
           ∧ access_token st' = None
           ∧ common st' !! "Authorization" = Some "Bearer undefined".
Proof.
  split; [done|]. eexists. split; [reflexivity|]. split; reflexivity.
Qed.




Example login_then_components :
  ∃ st', (login (fixed_portal 200 {["access_token" := "t0k3n"]} [] [])
            (new_client "demo" None None) "id" "secret").2 = Fulfilled st'
    ∧ access_token st' = Some "t0k3n"
    ∧ req_headers <$> (components (fixed_portal 200 ∅ [] []) st'
                         "plant" "2024-01-01").1
      = [<["Authorization" := "Bearer t0k3n"]> default_headers].
Proof.
  eexists. split; [reflexivity|]. split; [reflexivity|].
  vm_compute. reflexivity.
Qed.


(** * Further properties of the aggregator *)

(** X1.  The returned object has an entry under a key if and only if the
    key is none of the names inherited from [Object.prototype] and some
    record of the payload is filed under it.  An empty payload gives an
    empty object. *)
Theorem entry_keys_are_record_keys rs k :
  is_Some (contents (aggregate rs) !! k)
  ↔ inherited k = None ∧ ∃ s, s ∈ rs ∧ index_of s = k.
Proof.
  split.
  - intros [out (Hk & f & rest & Hg & _)%contents_keeps]. split; [done|].
    exists f. assert (Hf : f ∈ group k rs) by (rewrite Hg; by left).
    apply list_elem_of_filter in Hf. tauto.
  - intros (Hk & s & Hin & Hs).
    destruct (group k rs) as [|f rest] eqn:Hg.
    { exfalso. by eapply (filter_nil_not_elem_of (λ s, index_of s = k)). }
    destruct (entry_exists rs k f rest Hk Hg) as (out & Hout & _). eauto.
Qed.

(** X2.  For a key that is no inherited name, the [null] positions of the
    entry are those of the key's first-seen record, whatever the payload
    holds otherwise: a later [null] never makes a position [null], and a
    [null] of the first record is never filled. *)
Theorem entry_nulls_are_first_nulls rs k f rest :
  inherited k = None →
  group k rs = f :: rest →
  ∃ out, contents (aggregate rs) !! k = Some out
         ∧ ∀ i, is_null (arr_get out i) = is_null (arr_get (dataPoints f) i).
Proof.
  intros Hk Hg.
  destruct (entry_exists rs k f rest Hk Hg) as (out & Hout & (_ & Hn & _) & _).
  eauto.
Qed.

Lemma entry_nulls_are_first_nulls_witness :
  ∃ out, contents (aggregate [proto_long; B_rec; A_rec; etotal_one])
           !! "P_2024-01-01" = Some out
         ∧ ∀ i, is_null (arr_get out i)
                = is_null (arr_get (dataPoints B_rec) i).
Proof.
  apply (entry_nulls_are_first_nulls [proto_long; B_rec; A_rec; etotal_one]
           "P_2024-01-01" B_rec [A_rec]).
  - reflexivity.
  - reflexivity.
Defined.

(** X3.  Every position of an entry that lies past the end of the key's
    first-seen record holds [NaN]: there the loop adds to [undefined], and
    nothing added later changes a [NaN]. *)
Theorem entry_past_first_is_nan rs k f rest (out : array) i :
  group k rs = f :: rest →
  contents (aggregate rs) !! k = Some out →
  length (dataPoints f) ≤ i → i < length out →
  out !! i = Some (JNumber nan).
Proof.
  intros Hg Hout Hf Hi.
  destruct (contents_keeps _ _ _ Hout) as (_ & f' & rest' & Hg' & _ & _ & Hnan).
  assert (f' = f) as -> by congruence.
  rewrite arr_get_lookup by done. f_equal. by apply Hnan.
Qed.

Lemma entry_past_first_is_nan_witness :
  contents (aggregate [short_first; long_later]) !! "ProdPdc_2024-01-01"
  = Some [JNumber 3; JNumber nan]
  ∧ [JNumber 3; JNumber nan] !! 1 = Some (JNumber nan).
Proof.
  assert (Hout : contents (aggregate [short_first; long_later])
                   !! "ProdPdc_2024-01-01" = Some [JNumber 3; JNumber nan])
    by (vm_compute; reflexivity).
  split; [exact Hout|].
  apply (entry_past_first_is_nan [short_first; long_later]
           "ProdPdc_2024-01-01" short_first [long_later]
           [JNumber 3; JNumber nan] 1).
  - reflexivity.
  - exact Hout.
  - simpl. lia.
  - simpl. lia.
Defined.

(** X4.  In a payload without a record filed under [__proto__], an entry
    depends on the records of its own key only: it is the entry the loop
    computes from those records alone, wherever the records of other keys
    stand in the payload. *)
Theorem entry_of_own_records rs k :
  unpolluted rs →
  contents (aggregate rs) !! k = contents (aggregate (group k rs)) !! k.
Proof.
  intros Hun.
  rewrite !contents_aggregate by (done || by apply unpolluted_filter).
  replace (group k (group k rs)) with (group k rs); [done|].
  unfold group. rewrite list_filter_filter.
  apply list_filter_iff. tauto.
Qed.

Lemma entry_of_own_records_witness :
  contents (aggregate [pdc_one; etotal_one; pdc_two]) !! "ProdPdc_2024-01-01"
  = contents (aggregate (group "ProdPdc_2024-01-01"
                           [pdc_one; etotal_one; pdc_two]))
      !! "ProdPdc_2024-01-01".
Proof.
  apply (entry_of_own_records [pdc_one; etotal_one; pdc_two]
           "ProdPdc_2024-01-01").
  repeat constructor; discriminate.
Defined.



(** X6.  The loop allocates no array: the heap keeps one array per record.
    Every entry of [data] is the address of a record of the payload that is
    filed under the entry's key, so two keys never share an array. *)
Theorem entries_are_payload_arrays rs :
  length (mem (aggregate rs)) = length rs
  ∧ (∀ k l, data (aggregate rs) !! k = Some l →
            ∃ s, rs !! l = Some s ∧ index_of s = k)
  ∧ (∀ k1 k2 l, data (aggregate rs) !! k1 = Some l →
                data (aggregate rs) !! k2 = Some l → k1 = k2).
Proof.
  split; [by destruct (aggregate_inv rs) as (? & _)|].
  assert (Hrec : ∀ k l, data (aggregate rs) !! k = Some l →
                        ∃ s, rs !! l = Some s ∧ index_of s = k).
  { intros k l. rewrite aggregate_data.
    destruct (inherited k); [done|]. apply first_at_lookup. }
  split; [done|]. intros k1 k2 l H1 H2.
  destruct (Hrec _ _ H1) as (s1 & Hs1 & <-).
  destruct (Hrec _ _ H2) as (s2 & Hs2 & <-). congruence.
Qed.

(** X12.  When exactly one record of the payload is filed under a key that
    is no inherited name, the returned object holds that record's
    [dataPoints], unchanged, under the key, whatever else is in the
    payload. *)
Theorem single_record_unchanged rs k r :
  inherited k = None →
  group k rs = [r] →
  contents (aggregate rs) !! k = Some (dataPoints r).
Proof.
  intros Hk Hg.
  destruct (entry_exists rs k r [] Hk Hg) as (out & Hout & _ & Heq).
  by rewrite Hout, Heq.
Qed.

Lemma single_record_unchanged_witness :
  contents (aggregate [proto_long; pdc_one; pdc_two; etotal_one])
    !! "ProdEtotal_2024-01-01"
  = Some (dataPoints etotal_one).
Proof.
  apply (single_record_unchanged [proto_long; pdc_one; pdc_two; etotal_one]
           "ProdEtotal_2024-01-01" etotal_one).
  - reflexivity.
  - reflexivity.
Defined.







(** X16.  What the loop does to the realm.  An inherited object that no
    record of the payload is filed under gets no property; in particular a
    payload without such records leaves the realm as it found it.  Every
    property the loop writes onto [Object.prototype] is [NaN], and a record
    filed under [__proto__] leaves such a property at each of its indices.
    No record filed under an inherited name has an entry in the returned
    object. *)
Theorem inherited_names_reach_the_realm :
  (∀ rs b,
     Forall (λ s, inherited (index_of s) ≠ Some b) rs →
     realm (aggregate rs) b = [])
  ∧ (∀ rs, all_nan (realm (aggregate rs) ObjectPrototype))
  ∧ (∀ rs s,
       s ∈ rs → index_of s = "__proto__" →
       length (dataPoints s) ≤ length (realm (aggregate rs) ObjectPrototype))
  ∧ (∀ rs k, inherited k ≠ None → contents (aggregate rs) !! k = None).
Proof.
  split; [|split; [|split]].
  - intros rs b Hall. rewrite aggregate_progress.
    apply progress_realm; [done|]. by rewrite take_ge.
  - intros rs. by destruct (aggregate_inv rs) as (_ & ? & _).
  - intros rs s [j Hj]%list_elem_of_lookup Hk.
    destruct (aggregate_inv rs) as (_ & _ & _ & _ & Hp).
    apply (Hp j s); [by eapply lookup_lt_Some|done..].
  - intros rs k Hk. unfold contents. rewrite lookup_fmap, aggregate_data.
    by destruct (inherited k).
Qed.
Lemma inherited_names_reach_the_realm_witness :
  length (dataPoints proto_long)
  ≤ length (realm (aggregate [proto_long; plain_five]) ObjectPrototype).
Proof.
  apply (proj1 (proj2 (proj2 inherited_names_reach_the_realm))
           [proto_long; plain_five] proto_long).
  - repeat constructor.
  - reflexivity.
Defined.

(** ** The realm a call starts in *)

Lemma cell_same_core st1 st2 p i :
  same_core st1 st2 →
  (∀ b, p = OnBuiltin b → b = ObjectPrototype) →
  cell st1 p i = cell st2 p i.
Proof.
  intros (_ & Hm & Hr) Hp. unfold cell.
  replace (props_of st1 p) with (props_of st2 p); [by rewrite Hr|].
  destruct p as [l|b]; simpl; [by rewrite Hm|].
  by rewrite (Hp b eq_refl).
Qed.

Lemma add_at_same_core acc src st1 st2 i :
  same_core st1 st2 →
  same_core (add_at acc src st1 i) (add_at acc src st2 i).
Proof.
  intros Hc. pose proof Hc as (Hd & Hm & Hr). unfold add_at.
  destruct acc as [l|b]; [|destruct (decide (b = ObjectPrototype)) as [->|Hb]].
  - rewrite (cell_same_core st1 st2 (InHeap l) i Hc) by done.
    rewrite (cell_same_core st1 st2 (InHeap src) i Hc) by done.
    destruct (cell st2 (InHeap l) i); [|done|]; simpl;
      (repeat split; [done|by rewrite Hm|done]).
  - rewrite (cell_same_core st1 st2 (OnBuiltin ObjectPrototype) i Hc)
      by congruence.
    rewrite (cell_same_core st1 st2 (InHeap src) i Hc) by done.
    destruct (cell st2 (OnBuiltin ObjectPrototype) i); [|done|]; simpl;
      (repeat split; [done..|simpl; by rewrite !fn_lookup_insert, Hr]).
  - destruct (cell st1 _ i), (cell st2 _ i); simpl; repeat split;
      try done; simpl; by rewrite ?fn_lookup_insert_ne.
Qed.

Lemma inner_loop_same_core acc src idxs st1 st2 :
  same_core st1 st2 →
  same_core (foldl (add_at acc src) st1 idxs) (foldl (add_at acc src) st2 idxs).
Proof.
  revert st1 st2. induction idxs as [|i idxs IH]; intros st1 st2 Hc; [done|].
  simpl. by apply IH, add_at_same_core.
Qed.

Lemma visit_same_core st1 st2 item :
  same_core st1 st2 → same_core (visit st1 item) (visit st2 item).
Proof.
  intros Hc. pose proof Hc as (Hd & Hm & Hr). unfold visit, data_get, indices.
  simpl. rewrite Hd, Hm, Hr.
  destruct (data st2 !! index_of item) as [l|]; simpl.
  { by apply inner_loop_same_core. }
  destruct (inherited (index_of item)) as [b|]; simpl.
  { by apply inner_loop_same_core. }
  repeat split; simpl; congruence.
Qed.

Lemma loop_same_core items st1 st2 :
  same_core st1 st2 → same_core (foldl visit st1 items) (foldl visit st2 items).
Proof.
  revert st1 st2. induction items as [|x items IH]; intros st1 st2 Hc; [done|].
  simpl. by apply IH, visit_same_core.
Qed.

(** X17.  The loop reads the realm it is called in: a call depends on it
    through the index properties of [Object.prototype], and on nothing
    else.  Started in any realm whose [Object.prototype] has no index
    property, it returns the keys and the arrays it returns in a fresh
    realm, and leaves the same properties on [Object.prototype].  Started
    in the realm that an earlier call with a three-value [__proto__] record
    left behind, the two one-value records under [P_d] give an entry of
    three values. *)
Theorem realm_matters_through_object_prototype :
  (∀ rlm rs,
     rlm ObjectPrototype = [] →
     data (aggregate_in rlm rs) = data (aggregate rs)
     ∧ mem (aggregate_in rlm rs) = mem (aggregate rs)
     ∧ realm (aggregate_in rlm rs) ObjectPrototype
       = realm (aggregate rs) ObjectPrototype)
  ∧ (∀ rs, aggregate_in pristine rs = aggregate rs)
  ∧ contents (aggregate_in (realm (aggregate [proto_long]))
                [plain_five; plain_six]) !! "P_d"
    = Some [JNumber 11; JNumber nan; JNumber nan].
Proof.
  split; [|split].
  - intros rlm rs Hr. apply loop_same_core. by repeat split.
  - done.
  - vm_compute. reflexivity.
Qed.

Lemma realm_matters_through_object_prototype_witness :
  data (aggregate_in (<[DefineGetter := [JNumber 7]]> pristine)
          [A_rec; B_rec])
  = data (aggregate [A_rec; B_rec])
  ∧ mem (aggregate_in (<[DefineGetter := [JNumber 7]]> pristine)
           [A_rec; B_rec])
    = mem (aggregate [A_rec; B_rec])
  ∧ realm (aggregate_in (<[DefineGetter := [JNumber 7]]> pristine)
             [A_rec; B_rec]) ObjectPrototype
    = realm (aggregate [A_rec; B_rec]) ObjectPrototype.
Proof.
  apply (proj1 realm_matters_through_object_prototype
           (<[DefineGetter := [JNumber 7]]> pristine) [A_rec; B_rec]).
  reflexivity.
Defined.

(** * Further properties of the client *)

Lemma append_assoc (a b c : string) : (a +:+ b) +:+ c = a +:+ b +:+ c.
Proof.
  induction a as [|x a IH]; [done|].
  by rewrite !append_cons, IH.
Qed.

(** The headers the instance is created with are on every request it
    sends, whatever [defaults.headers.common] holds. *)
Lemma headers_of_default st own k v :
  own !! k = None → default_headers !! k = Some v →
  headers_of st own !! k = Some v.
Proof.
  intros Hown Hk. unfold headers_of.
  apply lookup_union_Some_l. by rewrite lookup_union_r.
Qed.

(** X7.  Whatever the portal answers, a read method sends exactly one
    request: a GET without body, against the client's [baseURL], whose path
    lies under [/api/v1/<portal>/], and which carries each of the five
    headers the instance was created with, at its fixed value. *)
Theorem read_call_request net st call :
  ∃ r path,
    requests_of net st call = [r]
    ∧ req_method r = GET
    ∧ req_body r = []
    ∧ req_baseURL r = baseURL st
    ∧ req_url r = "/api/v1/" +:+ portal st +:+ "/" +:+ path
    ∧ ∀ k v, default_headers !! k = Some v → req_headers r !! k = Some v.
Proof.
  destruct call; simpl;
    unfold get_inverters, get_combined_inverter_data;
    rewrite ?bind_ret_requests;
    eexists; eexists;
    (split; [reflexivity|]); (split; [reflexivity|]);
    (split; [reflexivity|]); (split; [reflexivity|]);
    (split; [reflexivity|]);
    intros k v Hk; by apply headers_of_default.
Qed.

(** X8.  [get_inverters] sends the request of [components] and no other;
    when that call is rejected, [get_inverters] is rejected with the same
    error. *)
Theorem get_inverters_delegates net st plantId date :
  (get_inverters net st plantId date).1 = (components net st plantId date).1
  ∧ ∀ e, (components net st plantId date).2 = Rejected e →
         (get_inverters net st plantId date).2 = Rejected e.
Proof.
  unfold get_inverters. split; [by rewrite bind_ret_requests|].
  intros e He. by rewrite (bind_rejected _ _ _ He).
Qed.

(** X9.  A fulfilled [login] changes the stored token and the
    [Authorization] default header and nothing else: the portal, both URLs
    and every other default header stay as they were. *)
Theorem login_frame net st client_id client_secret st' :
  (login net st client_id client_secret).2 = Fulfilled st' →
  portal st' = portal st
  ∧ baseURL st' = baseURL st
  ∧ authURL st' = authURL st
  ∧ ∀ k, k ≠ "Authorization" → common st' !! k = common st !! k.
Proof.
  intros Hlogin.
  destruct (login_settles net st client_id client_secret) as [_ Hres].
  rewrite Hres in Hlogin. destruct (settle _) as [res_data|e]; [|done].
  injection Hlogin as <-. simpl. repeat split.
  intros k Hk. by rewrite lookup_insert_ne.
Qed.

Lemma login_frame_witness :
  portal (Client "demo" "https://a" "https://b" (Some "t0k3n")
            (<["Authorization" := "Bearer t0k3n"]> {["X-Trace" := "1"]}))
  = portal (Client "demo" "https://a" "https://b" None {["X-Trace" := "1"]})
  ∧ baseURL (Client "demo" "https://a" "https://b" (Some "t0k3n")
               (<["Authorization" := "Bearer t0k3n"]> {["X-Trace" := "1"]}))
    = baseURL (Client "demo" "https://a" "https://b" None {["X-Trace" := "1"]})
  ∧ authURL (Client "demo" "https://a" "https://b" (Some "t0k3n")
               (<["Authorization" := "Bearer t0k3n"]> {["X-Trace" := "1"]}))
    = authURL (Client "demo" "https://a" "https://b" None {["X-Trace" := "1"]})
  ∧ ∀ k, k ≠ "Authorization" →
      common (Client "demo" "https://a" "https://b" (Some "t0k3n")
                (<["Authorization" := "Bearer t0k3n"]> {["X-Trace" := "1"]}))
        !! k
      = common (Client "demo" "https://a" "https://b" None
                  {["X-Trace" := "1"]}) !! k.
Proof.
  apply (login_frame (fixed_portal 200 {["access_token" := "t0k3n"]} [] [])
           (Client "demo" "https://a" "https://b" None {["X-Trace" := "1"]})
           "id" "secret").
  reflexivity.
Defined.




(** X11.  Path segments are pasted in unescaped: asking for a month is
    asking for the year whose text is the year, [/month/] and the month. *)
Theorem month_is_a_longer_year net st plantId year month channelNames :
  get_channel_data_month net st plantId year month channelNames
  = get_channel_data_year net st plantId (year +:+ "/month/" +:+ month)
      channelNames.
Proof.
  unfold get_channel_data_month, get_channel_data_year.
  by rewrite <- !append_assoc.
Qed.
